(** * parse_ros2_logs: a shallow embedding of [ParseRos2Logs] and of the
    pyparsing elements it is built from, with the properties of the line
    grammar and of the log store.

    Python strings are sequences of Unicode code points; the character classes
    of the grammar are ASCII, so a code point is kept as a number and the
    literals of the source are written through [py]. *)

From Stdlib Require Import String Ascii NArith ZArith Bool Arith Lia List.
Import ListNotations.

Set Implicit Arguments.

(** ** Python [str] *)

Definition char := N.
Definition str := list char.

Definition ord (a : ascii) : char := N_of_ascii a.
Definition py (s : string) : str := map ord (list_ascii_of_string s).
Arguments py s%_string.

Definition SPACE : char := 32%N.
Definition TAB : char := 9%N.
Definition NEWLINE : char := 10%N.
Definition RETURN : char := 13%N.
Definition DQUOTE : char := 34%N.
Definition LBRACKET : char := 91%N.
Definition RBRACKET : char := 93%N.
Definition COLON : char := 58%N.

(** [c in chars] for a one-character [c]. *)
Definition chr_in (c : char) (chars : str) : bool := existsb (N.eqb c) chars.
Arguments chr_in : simpl never.

Fixpoint take_while (p : char -> bool) (s : str) : str :=
  match s with
  | c :: r => if p c then c :: take_while p r else []
  | [] => []
  end.

Fixpoint drop_while (p : char -> bool) (s : str) : str :=
  match s with
  | c :: r => if p c then drop_while p r else s
  | [] => []
  end.

(** [str.expandtabs()] with the default tab size of 8: [line_pos] is the
    column, reset by a line feed or a carriage return; a tab becomes the
    spaces that reach the next multiple of 8. *)
Fixpoint expandtabs_from (line_pos : nat) (s : str) : str :=
  match s with
  | [] => []
  | ch :: r =>
      if N.eqb ch TAB then
        let incr := 8 - line_pos mod 8 in
        repeat SPACE incr ++ expandtabs_from (line_pos + incr) r
      else
        ch :: expandtabs_from
                (if N.eqb ch NEWLINE || N.eqb ch RETURN then 0 else S line_pos) r
  end.

Definition expandtabs (s : str) : str := expandtabs_from 0 s.

(** ** pyparsing

    The module builds its pattern from [Word], [Suppress] and [+] of
    pyparsing 3 and calls [parse_string] on it.  The elements are given
    with the behaviour of the library's defaults, which the module does not
    change: every element first skips the whitespace at its location
    ([preParse]), [Word] takes the longest run of its characters and needs
    one at least, and [parse_string] expands tabs and does not ask for the
    whole string to be matched. *)

(** [ParseResults]: the token list and the named results, in insertion
    order. *)
Record ParseResults := mkResults {
  toklist : list str;
  tokdict : list (str * str)
}.

Definition no_tokens : ParseResults := mkResults [] [].

(** [ParseResults.__iadd__] *)
Definition iadd (a b : ParseResults) : ParseResults :=
  mkResults (toklist a ++ toklist b) (tokdict a ++ tokdict b).

(** A Python [dict] with [str] keys, in insertion order. *)
Definition dict := list (str * str).

Fixpoint dict_set (d : dict) (k v : str) : dict :=
  match d with
  | [] => [(k, v)]
  | (k', v') :: r =>
      if list_eq_dec N.eq_dec k k' then (k', v) :: r else (k', v') :: dict_set r k v
  end.

Definition as_list (r : ParseResults) : list str := toklist r.

Definition as_dict (r : ParseResults) : dict :=
  fold_left (fun d kv => dict_set d (fst kv) (snd kv)) (tokdict r) [].

(** A parser element maps the text at the current location, [instring[loc:]],
    to its tokens and the text at the new location; [None] is
    [ParseException]. *)
Definition ParserElement := str -> option (ParseResults * str).

(** [ParserElement.DEFAULT_WHITE_CHARS]: space, line feed, tab and carriage
    return. *)
Definition whiteChars : str := [SPACE; NEWLINE; TAB; RETURN].

Definition is_white (c : char) : bool := chr_in c whiteChars.
Arguments is_white : simpl never.

(** [preParse]: skip the leading whitespace. *)
Definition preParse (instring : str) : str := drop_while is_white instring.

(** [Literal] of a one-character string. *)
Definition Literal (matchChar : char) : ParserElement := fun instring =>
  match preParse instring with
  | c :: rest =>
      if N.eqb c matchChar then Some (mkResults [[matchChar]] [], rest) else None
  | [] => None
  end.

(** [Suppress(expr)]: match [expr] and drop its tokens. *)
Definition Suppress_expr (expr : ParserElement) : ParserElement := fun instring =>
  match expr instring with
  | Some (_, rest) => Some (no_tokens, rest)
  | None => None
  end.

(** [Suppress('c')]: the string becomes a [Literal]. *)
Definition Suppress (matchChar : char) : ParserElement :=
  Suppress_expr (Literal matchChar).

(** [Word(chars)]: one or more characters of [chars], as many as there are. *)
Definition Word (initChars : str) : ParserElement := fun instring =>
  match preParse instring with
  | c :: body =>
      if chr_in c initChars then
        Some (mkResults [c :: take_while (fun x => chr_in x initChars) body] [],
              drop_while (fun x => chr_in x initChars) body)
      else None
  | [] => None
  end.

(** [expr.set_results_name(name)], also written [expr(name)]: the first
    token is filed under [name]. *)
Definition set_results_name (expr : ParserElement) (name : str) : ParserElement :=
  fun instring =>
  match expr instring with
  | Some (tokens, rest) =>
      Some (mkResults (toklist tokens)
              match toklist tokens with
              | tok :: _ => [(name, tok)]
              | [] => []
              end, rest)
  | None => None
  end.

(** [a + b], the [And] of two elements. *)
Definition And (a b : ParserElement) : ParserElement := fun instring =>
  match a instring with
  | Some (resultlist, loc) =>
      match b loc with
      | Some (exprtokens, loc') => Some (iadd resultlist exprtokens, loc')
      | None => None
      end
  | None => None
  end.

Declare Scope parser_scope.
Delimit Scope parser_scope with parser.
Bind Scope parser_scope with ParserElement.
Infix "+" := And : parser_scope.

(** [parse_string(instring)], with [parse_all] left at [False]: tabs are
    expanded, the element is applied at location 0, and what follows the
    match is not looked at. *)
Definition parse_string (e : ParserElement) (instring : str) : option ParseResults :=
  match e (expandtabs instring) with
  | Some (tokens, _) => Some tokens
  | None => None
  end.

Definition uppers : str := py "ABCDEFGHIJKLMNOPQRSTUVWXYZ".
Definition lowers : str := py "abcdefghijklmnopqrstuvwxyz".
Definition alphas : str := uppers ++ lowers.
Definition nums : str := py "0123456789".
Definition alphanums : str := alphas ++ nums.

(** ** class ParseRos2Logs *)

(** The characters of a bracket field: the letters and digits of
    [alphanums] and the ASCII punctuation without the two square brackets. *)
Definition header_chars : str :=
  alphanums ++ py "!" ++ [DQUOTE] ++ py "#$%&'()*+,-./:;<=>?@\^_`{|}~".

(** The characters of the message: [alphanums], the space and all of the
    ASCII punctuation, the square brackets included. *)
Definition message_chars : str :=
  alphanums ++ py " !" ++ [DQUOTE] ++ py "#$%&'()*+,-./:;<=>?@[\]^_`{|}~".

Definition header (name : str) : ParserElement :=
  (Suppress LBRACKET + set_results_name (Word header_chars) name
   + Suppress RBRACKET)%parser.

Definition message : ParserElement := Word message_chars.

Definition __define_patterns : ParserElement :=
  (header (py "log_severity") + header (py "timestamp") + header (py "node_name")
   + Suppress COLON + set_results_name message (py "message"))%parser.

Record ParseRos2Logs := mkStore {
  __pattern : ParserElement;
  __log_data : list ParseResults;
  __dict_keys : list str
}.

(** [__init__] *)
Definition init : ParseRos2Logs :=
  mkStore __define_patterns []
    [py "log_severity"; py "timestamp"; py "node_name"; py "message"].

(** The instance and the standard output its methods write to. *)
Record World := mkWorld {
  self : ParseRos2Logs;
  stdout : str
}.

(** A method call: a result and the world after it. *)
Definition M (A : Type) := World -> A * World.

(** What [print(s)] adds to the standard output. *)
Definition println (s out : str) : str := out ++ s ++ [NEWLINE].

(** [print(s)] *)
Definition print (s : str) (w : World) : World :=
  mkWorld (self w) (println s (stdout w)).

(** [print(s, end = '')] *)
Definition print_noend (s : str) (w : World) : World :=
  mkWorld (self w) (stdout w ++ s).

(** [self.__log_data.append(result)] *)
Definition log_data_append (result : ParseResults) (w : World) : World :=
  mkWorld (mkStore (__pattern (self w)) (__log_data (self w) ++ [result])
             (__dict_keys (self w)))
          (stdout w).

(** What [parse_log] returns and what [parse_logs] collects: a list, a
    [ParseResults] or a string. *)
Inductive value :=
| VList (l : list str)
| VResults (r : ParseResults)
| VStr (s : str).

(** [len(v)] *)
Definition len (v : value) : nat :=
  match v with
  | VList l => length l
  | VResults r => length (toklist r)
  | VStr s => length s
  end.

Definition parse_log (target : str) : M value := fun w =>
  match parse_string (__pattern (self w)) target with
  | None => (VList [], print (py "Error: The string did not match the pattern.") w)
  | Some result => (VResults result, log_data_append result w)
  end.

Definition parse_logs (targets : list str) : M (list value) := fun w =>
  fold_left
    (fun (st : list value * World) target =>
       let (parse_results, w) := st in
       match parse_string (__pattern (self w)) target with
       | None => (parse_results ++ [VStr []], w)
       | Some result =>
           (parse_results ++ [VResults result], log_data_append result w)
       end)
    targets ([], w).

Definition dict_keys : M (list str) := fun w => (__dict_keys (self w), w).

Definition get_logs_as_dict : M (list dict) := fun w =>
  (fold_left (fun tmp log => tmp ++ [as_dict log]) (__log_data (self w)) [], w).

Definition get_logs_as_list : M (list (list str)) := fun w =>
  (fold_left (fun tmp log => tmp ++ [as_list log]) (__log_data (self w)) [], w).

(** ** main *)

(** What [main] reads from its surroundings: [sys.argv], [os.path.abspath]
    ([None] when it raises), [os.path.isfile], and [open(path).readlines()]
    ([None] when opening or decoding raises). *)
Record Env := mkEnv {
  argv : list str;
  abspath : str -> option str;
  isfile : str -> bool;
  readlines : str -> option (list str)
}.

(** How the program ends: [exit(status)], a normal return, or an exception
    that nothing catches. *)
Inductive Outcome :=
| Exit (status : Z) (out : str)
| Return (w : World)
| Raise (w : World).

Definition usage : str := py "Usage: parse_ros2_logs.py <log file path>".

(** The [try] block of [main]: the path, or [None] when any exception is
    raised ([IndexError] from [argv[1]], [ValueError], or one of [abspath]). *)
Definition main_path (env : Env) : option str :=
  match nth_error (argv env) 1 with
  | None => None
  | Some arg =>
      match abspath env arg with
      | None => None
      | Some p => if isfile env p then abspath env arg else None
      end
  end.

Definition main (env : Env) : Outcome :=
  match main_path env with
  | None => Exit 0 (println usage [])
  | Some path =>
      let ros2_logs := mkWorld init [] in
      match readlines env path with
      | None => Raise ros2_logs
      | Some log_data =>
          let (_, w1) := parse_logs log_data ros2_logs in
          let (logs, w2) := get_logs_as_list w1 in
          Return
            (fold_left
               (fun w i =>
                  print []
                    (fold_left (fun w j => print_noend (j ++ [SPACE]) w) i w))
               logs w2)
      end
  end.

(** ** Histories of calls *)

(** The calls a client makes on one instance. *)
Inductive Call :=
| CallParseLog (target : str)
| CallParseLogs (targets : list str)
| CallGetLogsAsList
| CallGetLogsAsDict
| CallDictKeys.

Definition call (c : Call) (w : World) : World :=
  match c with
  | CallParseLog target => snd (parse_log target w)
  | CallParseLogs targets => snd (parse_logs targets w)
  | CallGetLogsAsList => snd (get_logs_as_list w)
  | CallGetLogsAsDict => snd (get_logs_as_dict w)
  | CallDictKeys => snd (dict_keys w)
  end.

(** The world after a history of calls on a fresh instance. *)
Definition after (history : list Call) : World :=
  fold_left (fun w c => call c w) history (mkWorld init []).

(** The line [[s] [t] [n]: m]. *)
Definition log_line (s t n m : str) : str :=
  [LBRACKET] ++ s ++ [RBRACKET; SPACE; LBRACKET] ++ t
  ++ [RBRACKET; SPACE; LBRACKET] ++ n ++ [RBRACKET; COLON; SPACE] ++ m.

Definition hello_world : str :=
  py "[INFO] [1673415247.564669534] [minimal_publisher]: Publishing: "
  ++ [DQUOTE] ++ py "Hello World: 0" ++ [DQUOTE].

(** ** The shape of a log line *)

Definition all_in (chars s : str) : bool := forallb (fun c => chr_in c chars) s.

Definition blank (w : str) : bool := forallb is_white w.

(** [s] is empty or begins with a character that [p] rejects. *)
Definition halts (p : char -> bool) (s : str) : bool :=
  match s with
  | [] => true
  | c :: _ => negb (p c)
  end.

(** After whitespace, [text] continues with the character [c] and then with
    [rest]. *)
Definition lit_at (c : char) (text rest : str) : Prop :=
  exists w, blank w = true /\ text = w ++ c :: rest.

(** After whitespace, [text] continues with the non-empty run [tok] of
    characters of [chars], which [rest] does not prolong. *)
Definition word_at (chars text tok rest : str) : Prop :=
  exists w, blank w = true /\ text = w ++ tok ++ rest /\ tok <> []
            /\ all_in chars tok = true /\ halts is_white tok = true
            /\ halts (fun c => chr_in c chars) rest = true.

Definition header_at (text tok rest : str) : Prop :=
  exists r1 r2, lit_at LBRACKET text r1 /\ word_at header_chars r1 tok r2
                /\ lit_at RBRACKET r2 rest.

Definition log_at (text s t n m rest : str) : Prop :=
  exists r1 r2 r3 r4,
    header_at text s r1 /\ header_at r1 t r2 /\ header_at r2 n r3
    /\ lit_at COLON r3 r4 /\ word_at message_chars r4 m rest.

(** The results of a line with the fields [s], [t], [n] and [m]. *)
Definition log_results (s t n m : str) : ParseResults :=
  mkResults [s; t; n; m]
    [(py "log_severity", s); (py "timestamp", t); (py "node_name", n);
     (py "message", m)].

(** A bracket field the pattern takes whole: not empty, and of
    [header_chars] only. *)
Definition header_token (tok : str) : bool :=
  match tok with
  | [] => false
  | _ :: _ => all_in header_chars tok
  end.

(** A message the pattern takes whole: not empty, of [message_chars] only,
    and not beginning with a space. *)
Definition message_text (m : str) : bool :=
  match m with
  | [] => false
  | c :: _ => negb (N.eqb c SPACE) && all_in message_chars m
  end.

(** What [parse_logs] puts in its result for one line. *)
Definition entry (pattern : ParserElement) (target : str) : value :=
  match parse_string pattern target with
  | None => VStr []
  | Some result => VResults result
  end.

(** The results of the lines of [targets] that parse, in their order. *)
Definition successes (pattern : ParserElement) (targets : list str)
  : list ParseResults :=
  flat_map (fun target =>
              match parse_string pattern target with
              | None => []
              | Some result => [result]
              end) targets.

(** No character of [s] is a tab. *)
Definition no_tabs (s : str) : bool := forallb (fun c => negb (N.eqb c TAB)) s.

(** A field without whitespace and without square brackets. *)
Definition plain_field (x : str) : bool :=
  forallb (fun c => negb (is_white c) && negb (N.eqb c LBRACKET)
                    && negb (N.eqb c RBRACKET)) x.

(** The line parses. *)
Definition parses (pattern : ParserElement) (target : str) : bool :=
  match parse_string pattern target with
  | None => false
  | Some _ => true
  end.

(** ** Lines the pattern rejects *)

(** How many times [c] occurs in [s]. *)
Definition count (c : char) (s : str) : nat := count_occ N.eq_dec s c.
Arguments count : simpl never.

(** [s] has a character that is not whitespace. *)
Definition has_black (s : str) : bool := existsb (fun c => negb (is_white c)) s.

(** The longest run of message characters at the first character of
    [remainder] that is not whitespace. *)
Definition message_of (remainder : str) : str :=
  take_while (fun c => chr_in c message_chars) (preParse remainder).

(** [e] is [s] with each tab replaced by one or more spaces, as
    [expandtabs] does whatever the column. *)
Inductive expansion : str -> str -> Prop :=
| expansion_nil : expansion [] []
| expansion_tab (k : nat) (r e : str) :
    expansion r e -> expansion (TAB :: r) (repeat SPACE (S k) ++ e)
| expansion_chr (c : char) (r e : str) :
    c <> TAB -> expansion r e -> expansion (c :: r) (c :: e).

(** The text between the brackets of a field the pattern accepts: the
    token, with whitespace before and after it at most. *)
Definition field (x tok : str) : Prop :=
  exists a b, x = a ++ tok ++ b /\ blank a = true /\ blank b = true
              /\ header_token tok = true.

Definition is_bracket (c : char) : bool :=
  (N.eqb c LBRACKET || N.eqb c RBRACKET)%bool.

(** The square brackets of [s], in their order. *)
Definition brackets (s : str) : str := filter is_bracket s.

(** The first six brackets of the line are not the three pairs that open
    and close its fields: one is missing, or they come in another order. *)
Definition lacks_bracket (line : str) : Prop :=
  firstn 6 (brackets line)
  <> [LBRACKET; RBRACKET; LBRACKET; RBRACKET; LBRACKET; RBRACKET].

(** What follows the third closing bracket of the line does not begin,
    after whitespace, with a colon. *)
Definition lacks_colon (line : str) : Prop :=
  exists h rest, line = h ++ RBRACKET :: rest /\ count RBRACKET h = 2
                 /\ hd_error (preParse rest) <> Some COLON.

(** One of the first three bracket fields of the line has whitespace
    between two of its other characters. *)
Definition white_inside_field (line : str) : Prop :=
  exists pre a w b post,
    line = pre ++ LBRACKET :: (a ++ w :: b) ++ RBRACKET :: post
    /\ count LBRACKET pre < 3 /\ count RBRACKET (a ++ w :: b) = 0
    /\ is_white w = true /\ has_black a = true /\ has_black b = true.

(** Only whitespace follows the colon after the third closing bracket. *)
Definition empty_message (line : str) : Prop :=
  exists h g rest, line = h ++ RBRACKET :: g ++ COLON :: rest
                   /\ count RBRACKET h = 2 /\ blank g = true
                   /\ blank rest = true.

(** ** Histories and output *)

(** The lines a history submits to [parse_log] and [parse_logs], in their
    order. *)
Definition submitted (history : list Call) : list str :=
  flat_map (fun c =>
              match c with
              | CallParseLog target => [target]
              | CallParseLogs targets => targets
              | _ => []
              end) history.

(** One notice of [parse_log] for each of its calls on a line that does not
    parse. *)
Definition notices (history : list Call) : str :=
  flat_map (fun c =>
              match c with
              | CallParseLog target =>
                  if parses __define_patterns target then []
                  else py "Error: The string did not match the pattern."
                       ++ [NEWLINE]
              | _ => []
              end) history.

(** The line [main] prints for an entry: each field with a space after it. *)
Definition printed_entry (fields : list str) : str :=
  flat_map (fun j => j ++ [SPACE]) fields ++ [NEWLINE].

(** The four fields of an entry of the corpus. *)
Definition entry_fields (fields : list str) : Prop :=
  exists s t n m,
    fields = [s; t; n; m] /\ header_token s = true /\ header_token t = true
    /\ header_token n = true /\ message_text m = true.

(** ** The parts of a line, read off its characters *)

Definition is_black (c : char) : bool := negb (is_white c).

Definition not_bracket (c : char) : bool := negb (is_bracket c).

(** A bracket group at the head of [s]: after whitespace an opening
    bracket, a text without bracket, and a closing bracket.  The result is
    that text and what follows the group. *)
Definition bracket_group (s : str) : option (str * str) :=
  match preParse s with
  | c :: r =>
      if N.eqb c LBRACKET then
        match drop_while not_bracket r with
        | d :: rest =>
            if N.eqb d RBRACKET then Some (take_while not_bracket r, rest)
            else None
        | [] => None
        end
      else None
  | [] => None
  end.

(** The texts of the three bracket groups the line begins with, and what
    follows the third. *)
Definition bracket_groups (line : str) : option (str * str * str * str) :=
  match bracket_group line with
  | Some (x1, r1) =>
      match bracket_group r1 with
      | Some (x2, r2) =>
          match bracket_group r2 with
          | Some (x3, r3) => Some (x1, x2, x3, r3)
          | None => None
          end
      | None => None
      end
  | None => None
  end.

(** The text of a group is a field: once the whitespace at its two ends is
    set aside, a token of [header_chars] is left, not empty and without
    whitespace inside. *)
Definition is_field (x : str) : bool :=
  header_token (take_while is_black (drop_while is_white x))
  && blank (drop_while is_black (drop_while is_white x)).

(** After whitespace [s] continues with a colon; the result is what follows
    the colon. *)
Definition colon_then (s : str) : option str :=
  match preParse s with
  | c :: rest => if N.eqb c COLON then Some rest else None
  | [] => None
  end.

(** The first character of [s] that is not whitespace is a message
    character. *)
Definition has_message (s : str) : bool :=
  match preParse s with
  | c :: _ => chr_in c message_chars
  | [] => false
  end.

(** The line does not begin with three bracket groups: a bracket is missing
    or out of place. *)
Definition no_three_groups (line : str) : Prop := bracket_groups line = None.

(** One of the three groups of the line is not a field: it holds no token,
    whitespace inside its token, or a character a field cannot hold. *)
Definition bad_field (line : str) : Prop :=
  exists x1 x2 x3 r,
    bracket_groups line = Some (x1, x2, x3, r)
    /\ (is_field x1 && is_field x2 && is_field x3 = false).

(** No colon follows the three groups of the line. *)
Definition no_colon (line : str) : Prop :=
  exists x1 x2 x3 r,
    bracket_groups line = Some (x1, x2, x3, r) /\ colon_then r = None.

(** After the colon that follows the three groups comes nothing, only
    whitespace, or a character the message cannot hold. *)
Definition no_message (line : str) : Prop :=
  exists x1 x2 x3 r rest,
    bracket_groups line = Some (x1, x2, x3, r) /\ colon_then r = Some rest
    /\ has_message rest = false.

(** The line has its three fields, its colon and a message. *)
Definition accepted (line : str) : bool :=
  match bracket_groups line with
  | Some (x1, x2, x3, r) =>
      is_field x1 && is_field x2 && is_field x3
      && match colon_then r with
         | Some rest => has_message rest
         | None => false
         end
  | None => false
  end.

(** ** Lists of characters *)

Section Runs.

Variable p : char -> bool.

Lemma take_drop_while (s : str) : take_while p s ++ drop_while p s = s.
Proof.
  induction s as [|c r IH]; simpl; [reflexivity|].
  destruct (p c); simpl; [now rewrite IH | reflexivity].
Qed.

Lemma take_while_all (s : str) : forallb p (take_while p s) = true.
Proof.
  induction s as [|c r IH]; simpl; [reflexivity|].
  destruct (p c) eqn:E; simpl; [now rewrite E | reflexivity].
Qed.

Lemma drop_while_halts (s : str) : halts p (drop_while p s) = true.
Proof.
  induction s as [|c r IH]; simpl; [reflexivity|].
  destruct (p c) eqn:E; simpl; [assumption | now rewrite E].
Qed.

Lemma drop_while_id (s : str) : halts p s = true -> drop_while p s = s.
Proof.
  destruct s as [|c r]; simpl; [reflexivity|].
  now destruct (p c).
Qed.

Lemma take_while_nil (s : str) : halts p s = true -> take_while p s = [].
Proof.
  destruct s as [|c r]; simpl; [reflexivity|].
  now destruct (p c).
Qed.

Lemma drop_while_app (a s : str) :
  forallb p a = true -> drop_while p (a ++ s) = drop_while p s.
Proof.
  induction a as [|c r IH]; simpl; [reflexivity|].
  destruct (p c); simpl; [exact IH | discriminate].
Qed.

Lemma take_while_app (a s : str) :
  forallb p a = true -> take_while p (a ++ s) = a ++ take_while p s.
Proof.
  induction a as [|c r IH]; simpl; [reflexivity|].
  destruct (p c); simpl; [intros H; now rewrite IH | discriminate].
Qed.

Lemma drop_while_forallb (q : char -> bool) (s : str) :
  forallb q s = true -> forallb q (drop_while p s) = true.
Proof.
  induction s as [|c r IH]; simpl; [reflexivity|].
  intros H. destruct (p c); [|exact H].
  apply andb_prop in H as [_ Hr]. now apply IH.
Qed.

Lemma drop_while_keeps (a : str) (c : char) (rest : str) :
  p c = false -> exists a', drop_while p (a ++ c :: rest) = a' ++ c :: rest.
Proof.
  intros Hc. induction a as [|x r IH]; simpl.
  - rewrite Hc. now exists [].
  - destruct (p x); [exact IH|]. now exists (x :: r).
Qed.

End Runs.

(** ** The elements of pyparsing *)

Lemma preParse_app (w s : str) :
  blank w = true -> preParse (w ++ s) = preParse s.
Proof. apply drop_while_app. Qed.

Lemma preParse_split (s : str) :
  exists w, blank w = true /\ s = w ++ preParse s.
Proof.
  exists (take_while is_white s). split.
  - apply take_while_all.
  - symmetry. apply take_drop_while.
Qed.

Lemma Suppress_iff (c : char) (text : str) (r : ParseResults) (rest : str) :
  is_white c = false ->
  Suppress c text = Some (r, rest) <-> r = no_tokens /\ lit_at c text rest.
Proof.
  intros Hc. unfold Suppress, Suppress_expr, Literal, lit_at. split.
  - destruct (preParse_split text) as (w & Hw & Htext).
    destruct (preParse text) as [|c' rest'] eqn:E; [discriminate|].
    destruct (N.eqb_spec c' c) as [->|]; [|discriminate].
    intros H. injection H as <- <-. split; [reflexivity|].
    exists w. split; assumption.
  - intros (-> & w & Hw & ->).
    rewrite preParse_app by assumption.
    unfold preParse. rewrite drop_while_id by (simpl; now rewrite Hc).
    now rewrite N.eqb_refl.
Qed.

Lemma Word_iff (chars text : str) (r : ParseResults) (rest : str) :
  Word chars text = Some (r, rest) <->
  exists tok, r = mkResults [tok] [] /\ word_at chars text tok rest.
Proof.
  unfold Word, word_at. split.
  - destruct (preParse_split text) as (w & Hw & Htext).
    pose proof (drop_while_halts is_white text) as Hh. fold (preParse text) in Hh.
    destruct (preParse text) as [|c body] eqn:E; [discriminate|].
    destruct (chr_in c chars) eqn:Hc; [|discriminate].
    intros H. injection H as <- <-.
    eexists. split; [reflexivity|]. exists w.
    repeat split; try assumption.
    + rewrite Htext at 1. simpl. now rewrite take_drop_while.
    + discriminate.
    + unfold all_in. simpl. rewrite Hc. apply take_while_all.
    + apply drop_while_halts.
  - intros (tok & -> & w & Hw & -> & Hne & Hall & Hb & Hr).
    rewrite preParse_app by assumption.
    unfold preParse. rewrite drop_while_id
      by (destruct tok; [congruence | exact Hb]).
    destruct tok as [|c body]; [congruence|]. simpl.
    unfold all_in in Hall. simpl in Hall. apply andb_prop in Hall as [Hc Hbody].
    rewrite Hc. rewrite take_while_app, drop_while_app by assumption.
    rewrite take_while_nil, drop_while_id by assumption.
    now rewrite app_nil_r.
Qed.

Lemma And_iff (a b : ParserElement) (text : str) (r : ParseResults) (rest : str) :
  And a b text = Some (r, rest) <->
  exists r1 mid r2,
    a text = Some (r1, mid) /\ b mid = Some (r2, rest) /\ r = iadd r1 r2.
Proof.
  unfold And. split.
  - destruct (a text) as [[r1 mid]|]; [|discriminate].
    destruct (b mid) as [[r2 rest']|] eqn:Eb; [|discriminate].
    intros H. injection H as <- <-. now exists r1, mid, r2.
  - intros (r1 & mid & r2 & -> & -> & ->). reflexivity.
Qed.

Lemma set_results_name_iff (e : ParserElement) (name text : str)
      (r : ParseResults) (rest : str) :
  set_results_name e name text = Some (r, rest) <->
  exists r0, e text = Some (r0, rest)
             /\ r = mkResults (toklist r0)
                      match toklist r0 with
                      | tok :: _ => [(name, tok)]
                      | [] => []
                      end.
Proof.
  unfold set_results_name. split.
  - destruct (e text) as [[r0 rest']|]; [|discriminate].
    intros H. injection H as <- <-. now exists r0.
  - intros (r0 & -> & ->). reflexivity.
Qed.

(** ** The pattern of [__define_patterns] *)

Lemma header_iff (name text : str) (r : ParseResults) (rest : str) :
  header name text = Some (r, rest) <->
  exists tok, r = mkResults [tok] [(name, tok)] /\ header_at text tok rest.
Proof.
  unfold header, header_at. rewrite And_iff. split.
  - intros (r1 & mid & r2 & H1 & H2 & ->).
    apply And_iff in H1 as (r3 & mid' & r4 & H3 & H4 & ->).
    apply Suppress_iff in H3 as [-> H3]; [|reflexivity].
    apply Suppress_iff in H2 as [-> H2]; [|reflexivity].
    apply set_results_name_iff in H4 as (r0 & H4 & ->).
    apply Word_iff in H4 as (tok & -> & H4).
    exists tok. split; [reflexivity|]. now exists mid', mid.
  - intros (tok & -> & r1 & r2 & H1 & H2 & H3).
    exists (mkResults [tok] [(name, tok)]), r2, no_tokens.
    split; [|split; [|reflexivity]].
    + apply And_iff. exists no_tokens, r1, (mkResults [tok] [(name, tok)]).
      split; [|split; [|reflexivity]].
      * apply Suppress_iff; [reflexivity | now split].
      * apply set_results_name_iff. exists (mkResults [tok] []).
        split; [|reflexivity]. apply Word_iff. now exists tok.
    + apply Suppress_iff; [reflexivity | now split].
Qed.

(** The pattern accepts exactly the texts of the shape [log_at], and returns
    their four fields, each under its name. *)
Lemma define_patterns_iff (text : str) (r : ParseResults) (rest : str) :
  __define_patterns text = Some (r, rest) <->
  exists s t n m, r = log_results s t n m /\ log_at text s t n m rest.
Proof.
  unfold __define_patterns, log_at. split.
  - intros H.
    apply And_iff in H as (ra & r4 & rb & H & Hm & ->).
    apply And_iff in H as (rc & r3 & rd & H & Hc & ->).
    apply And_iff in H as (re & r2 & rf & H & Hn & ->).
    apply And_iff in H as (rg & r1 & rh & Hs & Ht & ->).
    apply header_iff in Hs as (s & -> & Hs).
    apply header_iff in Ht as (t & -> & Ht).
    apply header_iff in Hn as (n & -> & Hn).
    apply Suppress_iff in Hc as [-> Hc]; [|reflexivity].
    apply set_results_name_iff in Hm as (r0 & Hm & ->).
    apply Word_iff in Hm as (m & -> & Hm).
    exists s, t, n, m. split; [reflexivity|]. now exists r1, r2, r3, r4.
  - intros (s & t & n & m & -> & r1 & r2 & r3 & r4 & Hs & Ht & Hn & Hc & Hm).
    apply And_iff.
    exists (mkResults [s; t; n]
              [(py "log_severity", s); (py "timestamp", t); (py "node_name", n)]),
      r4, (mkResults [m] [(py "message", m)]).
    split; [|split; [|reflexivity]].
    + apply And_iff.
      exists (mkResults [s; t; n]
                [(py "log_severity", s); (py "timestamp", t);
                 (py "node_name", n)]), r3, no_tokens.
      split; [|split; [|reflexivity]].
      * apply And_iff.
        exists (mkResults [s; t]
                  [(py "log_severity", s); (py "timestamp", t)]), r2,
          (mkResults [n] [(py "node_name", n)]).
        split; [|split; [|reflexivity]].
        -- apply And_iff.
           exists (mkResults [s] [(py "log_severity", s)]), r1,
             (mkResults [t] [(py "timestamp", t)]).
           split; [|split; [|reflexivity]];
             apply header_iff; eexists; split; try reflexivity; assumption.
        -- apply header_iff. eexists; split; try reflexivity; assumption.
      * apply Suppress_iff; [reflexivity | now split].
    + apply set_results_name_iff. exists (mkResults [m] []).
      split; [|reflexivity]. apply Word_iff. now exists m.
Qed.

(** ** Character classes *)

Lemma chr_in_forall (p : char -> bool) (chars : str) (c : char) :
  forallb p chars = true -> chr_in c chars = true -> p c = true.
Proof.
  intros Hall Hin. unfold chr_in in Hin.
  apply existsb_exists in Hin as (x & Hx & Heq).
  apply N.eqb_eq in Heq as ->.
  rewrite forallb_forall in Hall. now apply Hall.
Qed.

Lemma all_in_forall (p : char -> bool) (chars s : str) :
  forallb p chars = true -> all_in chars s = true -> forallb p s = true.
Proof.
  intros Hall Hs. unfold all_in in Hs.
  rewrite forallb_forall in Hs |- *. intros c Hc.
  eapply chr_in_forall; eauto.
Qed.

Lemma header_chars_black (c : char) :
  chr_in c header_chars = true -> is_white c = false.
Proof.
  intros H. apply negb_true_iff.
  revert H. apply (chr_in_forall (fun c => negb (is_white c))). reflexivity.
Qed.

Lemma header_chars_message (c : char) :
  chr_in c header_chars = true -> chr_in c message_chars = true.
Proof.
  apply (chr_in_forall (fun c => chr_in c message_chars)). reflexivity.
Qed.

Lemma message_chars_no_tab (c : char) :
  chr_in c message_chars = true ->
  negb (N.eqb c TAB) = true.
Proof.
  apply (chr_in_forall (fun c => negb (N.eqb c TAB))). reflexivity.
Qed.

(** ** Tab expansion *)

Lemma expandtabs_from_id (s : str) (line_pos : nat) :
  no_tabs s = true ->
  expandtabs_from line_pos s = s.
Proof.
  unfold no_tabs.
  revert line_pos. induction s as [|c r IH]; intros k H; simpl in *.
  - reflexivity.
  - apply andb_prop in H as [Hc Hr]. apply negb_true_iff in Hc.
    rewrite Hc. now rewrite IH.
Qed.

Lemma expandtabs_message (s : str) :
  all_in message_chars s = true -> no_tabs s = true.
Proof. apply all_in_forall. reflexivity. Qed.

Lemma expandtabs_header (s : str) :
  all_in header_chars s = true -> no_tabs s = true.
Proof. apply all_in_forall. reflexivity. Qed.

(** ** Well-formed lines *)

Lemma header_token_inv (tok : str) :
  header_token tok = true -> tok <> [] /\ all_in header_chars tok = true.
Proof.
  destruct tok as [|c r]; simpl; [discriminate|].
  intros H. split; [discriminate | exact H].
Qed.

Lemma header_token_halts (tok : str) :
  header_token tok = true -> halts is_white tok = true.
Proof.
  destruct tok as [|c r]; simpl; [discriminate|].
  intros H. apply andb_prop in H as [Hc _].
  apply negb_true_iff. now apply header_chars_black.
Qed.

Lemma header_token_halts_app (tok rest : str) :
  header_token tok = true -> halts is_white (tok ++ rest) = true.
Proof.
  intros H. pose proof (header_token_halts _ H) as Hh.
  destruct tok; [discriminate | exact Hh].
Qed.

Lemma header_at_intro (w tok rest : str) :
  blank w = true -> header_token tok = true ->
  header_at (w ++ LBRACKET :: tok ++ RBRACKET :: rest) tok rest.
Proof.
  intros Hw Htok. destruct (header_token_inv _ Htok) as [Hne Hall].
  exists (tok ++ RBRACKET :: rest), (RBRACKET :: rest). repeat split.
  - now exists w.
  - exists []. repeat split; try assumption; try reflexivity.
    now apply header_token_halts.
  - now exists [].
Qed.

Lemma message_text_inv (m : str) :
  message_text m = true ->
  m <> [] /\ all_in message_chars m = true /\ halts is_white m = true.
Proof.
  destruct m as [|c r]; simpl; [discriminate|].
  intros H. apply andb_prop in H as [Hsp Hall].
  split; [discriminate|]. split; [exact Hall|].
  unfold all_in in Hall. simpl in Hall. apply andb_prop in Hall as [Hc _].
  apply negb_true_iff.
  assert (Hk : (negb (is_white c) || N.eqb c SPACE)%bool = true).
  { revert Hc.
    apply (chr_in_forall (fun c => (negb (is_white c) || N.eqb c SPACE)%bool)).
    reflexivity. }
  apply orb_prop in Hk as [Hk|Hk].
  - now apply negb_true_iff in Hk.
  - rewrite Hk in Hsp. discriminate.
Qed.

Lemma log_at_line (s t n m : str) :
  header_token s = true -> header_token t = true -> header_token n = true ->
  message_text m = true ->
  log_at (log_line s t n m) s t n m [].
Proof.
  intros Hs Ht Hn Hm.
  destruct (message_text_inv _ Hm) as (Hne & Hall & Hb).
  unfold log_line. simpl.
  exists (SPACE :: LBRACKET :: t ++ RBRACKET :: SPACE :: LBRACKET :: n
            ++ RBRACKET :: COLON :: SPACE :: m),
    (SPACE :: LBRACKET :: n ++ RBRACKET :: COLON :: SPACE :: m),
    (COLON :: SPACE :: m), (SPACE :: m).
  repeat split.
  - now apply (header_at_intro []).
  - now apply (header_at_intro [SPACE]).
  - now apply (header_at_intro [SPACE]).
  - now exists [].
  - exists [SPACE]. rewrite app_nil_r. now repeat split.
Qed.

Lemma log_line_expandtabs (s t n m : str) :
  header_token s = true -> header_token t = true -> header_token n = true ->
  message_text m = true ->
  expandtabs (log_line s t n m) = log_line s t n m.
Proof.
  intros Hs Ht Hn Hm. apply expandtabs_from_id.
  apply header_token_inv in Hs as [_ Hs]. apply expandtabs_header in Hs.
  apply header_token_inv in Ht as [_ Ht]. apply expandtabs_header in Ht.
  apply header_token_inv in Hn as [_ Hn]. apply expandtabs_header in Hn.
  apply message_text_inv in Hm as (_ & Hm & _). apply expandtabs_message in Hm.
  unfold log_line, no_tabs in *. rewrite !forallb_app.
  repeat (apply andb_true_intro; split); try assumption; reflexivity.
Qed.

Lemma parse_string_line (s t n m : str) :
  header_token s = true -> header_token t = true -> header_token n = true ->
  message_text m = true ->
  parse_string __define_patterns (log_line s t n m) = Some (log_results s t n m).
Proof.
  intros Hs Ht Hn Hm. unfold parse_string.
  rewrite log_line_expandtabs by assumption.
  assert (H : __define_patterns (log_line s t n m)
              = Some (log_results s t n m, [])).
  { apply define_patterns_iff. exists s, t, n, m.
    split; [reflexivity | now apply log_at_line]. }
  now rewrite H.
Qed.

(** ** The store *)

Lemma parse_logs_fold (targets : list str) (acc : list value) (w : World) :
  fold_left
    (fun (st : list value * World) target =>
       let (parse_results, w) := st in
       match parse_string (__pattern (self w)) target with
       | None => (parse_results ++ [VStr []], w)
       | Some result =>
           (parse_results ++ [VResults result], log_data_append result w)
       end)
    targets (acc, w)
  = (acc ++ map (entry (__pattern (self w))) targets,
     mkWorld (mkStore (__pattern (self w))
                (__log_data (self w) ++ successes (__pattern (self w)) targets)
                (__dict_keys (self w)))
       (stdout w)).
Proof.
  revert acc w.
  induction targets as [|target r IH]; intros acc w; simpl.
  - rewrite !app_nil_r. now destruct w as [[P L K] out].
  - unfold entry at 1.
    destruct (parse_string (__pattern (self w)) target) as [result|] eqn:E.
    + rewrite IH. simpl. now rewrite <- !app_assoc.
    + rewrite IH. simpl. now rewrite <- !app_assoc.
Qed.

Lemma parse_logs_eq (targets : list str) (w : World) :
  parse_logs targets w
  = (map (entry (__pattern (self w))) targets,
     mkWorld (mkStore (__pattern (self w))
                (__log_data (self w) ++ successes (__pattern (self w)) targets)
                (__dict_keys (self w)))
       (stdout w)).
Proof. unfold parse_logs. now rewrite parse_logs_fold. Qed.

Lemma call_pattern (c : Call) (w : World) :
  __pattern (self (call c w)) = __pattern (self w).
Proof.
  destruct c as [target|targets| | |]; simpl; try reflexivity.
  - unfold parse_log. now destruct (parse_string _ target).
  - now rewrite parse_logs_eq.
Qed.

Lemma call_dict_keys (c : Call) (w : World) :
  __dict_keys (self (call c w)) = __dict_keys (self w).
Proof.
  destruct c as [target|targets| | |]; simpl; try reflexivity.
  - unfold parse_log. now destruct (parse_string _ target).
  - now rewrite parse_logs_eq.
Qed.

Lemma fold_call_invariant (A : Type) (f : World -> A) (history : list Call) :
  (forall c w, f (call c w) = f w) ->
  forall w, f (fold_left (fun w c => call c w) history w) = f w.
Proof.
  intros Hf. induction history as [|c r IH]; intros w; simpl.
  - reflexivity.
  - now rewrite IH, Hf.
Qed.

Lemma after_pattern (history : list Call) :
  __pattern (self (after history)) = __define_patterns.
Proof.
  unfold after.
  now rewrite (fold_call_invariant (fun w => __pattern (self w)))
    by apply call_pattern.
Qed.

Lemma after_dict_keys (history : list Call) :
  __dict_keys (self (after history)) = __dict_keys init.
Proof.
  unfold after.
  now rewrite (fold_call_invariant (fun w => __dict_keys (self w)))
    by apply call_dict_keys.
Qed.

Lemma fold_append_map (A B : Type) (f : A -> B) (l : list A) (acc : list B) :
  fold_left (fun tmp x => tmp ++ [f x]) l acc = acc ++ map f l.
Proof.
  revert acc. induction l as [|x r IH]; intros acc; simpl.
  - now rewrite app_nil_r.
  - now rewrite IH, <- app_assoc.
Qed.

Lemma successes_length (pattern : ParserElement) (targets : list str) :
  length (successes pattern targets) = length (filter (parses pattern) targets).
Proof.
  unfold successes, parses.
  induction targets as [|target r IH]; simpl; [reflexivity|].
  destruct (parse_string pattern target); simpl; now rewrite IH.
Qed.

Lemma parse_string_fields (target : str) (r : ParseResults) :
  parse_string __define_patterns target = Some r ->
  exists s t n m, r = log_results s t n m.
Proof.
  unfold parse_string.
  destruct (__define_patterns (expandtabs target)) as [[r' rest]|] eqn:E;
    [|discriminate].
  intros H. injection H as <-.
  apply define_patterns_iff in E as (s & t & n & m & -> & _).
  now exists s, t, n, m.
Qed.

(** ** Counting and splitting *)

Lemma count_app (c : char) (a b : str) :
  count c (a ++ b) = count c a + count c b.
Proof. apply count_occ_app. Qed.

Lemma count_cons_eq (c : char) (s : str) : count c (c :: s) = S (count c s).
Proof. unfold count. now rewrite count_occ_cons_eq. Qed.

Lemma count_cons_neq (c x : char) (s : str) :
  x <> c -> count c (x :: s) = count c s.
Proof. intros H. unfold count. now rewrite count_occ_cons_neq. Qed.

Lemma count_absent (c : char) (s : str) :
  forallb (fun x => negb (N.eqb x c)) s = true -> count c s = 0.
Proof.
  induction s as [|x r IH]; simpl; [reflexivity|].
  intros H. apply andb_prop in H as [Hx Hr].
  apply negb_true_iff, N.eqb_neq in Hx.
  rewrite count_cons_neq by assumption. now apply IH.
Qed.

Lemma count_blank (c : char) (w : str) :
  is_white c = false -> blank w = true -> count c w = 0.
Proof.
  intros Hc Hw. apply count_absent.
  unfold blank in Hw. rewrite forallb_forall in Hw |- *.
  intros x Hx. apply negb_true_iff, N.eqb_neq. intros ->.
  apply Hw in Hx. congruence.
Qed.

Lemma count_header (c : char) (tok : str) :
  chr_in c header_chars = false -> all_in header_chars tok = true ->
  count c tok = 0.
Proof.
  intros Hc Htok. apply count_absent.
  unfold all_in in Htok. rewrite forallb_forall in Htok |- *.
  intros x Hx. apply negb_true_iff, N.eqb_neq. intros ->.
  apply Htok in Hx. congruence.
Qed.

(** A text splits in one way only at a given occurrence of a character. *)
Lemma split_unique (c : char) (p1 p2 q1 q2 : str) :
  count c p1 = count c p2 -> p1 ++ c :: q1 = p2 ++ c :: q2 ->
  p1 = p2 /\ q1 = q2.
Proof.
  revert p2. induction p1 as [|x r IH]; intros [|y p2] Hc Heq; simpl in *.
  - injection Heq as <-. now split.
  - injection Heq as <- _. rewrite count_cons_eq in Hc. discriminate.
  - injection Heq as -> _. rewrite count_cons_eq in Hc. discriminate.
  - injection Heq as <- Heq.
    assert (Hc' : count c r = count c p2).
    { destruct (N.eq_dec x c) as [->|Hx].
      - rewrite !count_cons_eq in Hc. now injection Hc.
      - now rewrite !count_cons_neq in Hc by assumption. }
    destruct (IH _ Hc' Heq) as [-> ->]. now split.
Qed.

(** ** Whitespace *)

Lemma blank_has_black (s : str) : blank s = true -> has_black s = false.
Proof.
  unfold blank, has_black. induction s as [|c r IH]; simpl; [reflexivity|].
  intros H. apply andb_prop in H as [Hc Hr]. rewrite Hc. simpl. now apply IH.
Qed.

Lemma has_black_split (a : str) :
  has_black a = true ->
  exists a0 c a1, a = a0 ++ c :: a1 /\ is_white c = false.
Proof.
  unfold has_black. intros H.
  apply existsb_exists in H as (c & Hin & Hc).
  apply in_split in Hin as (a0 & a1 & ->).
  apply negb_true_iff in Hc. now exists a0, c, a1.
Qed.

(** Whitespace between two other characters cannot be the text of a
    field. *)
Lemma field_no_inner_white (x tok a b : str) (w : char) :
  field x tok -> x = a ++ w :: b -> is_white w = true ->
  has_black a = true -> has_black b = true -> False.
Proof.
  intros (wa & wb & -> & Hwa & Hwb & Htok) Heq Hw Ha Hb.
  destruct (header_token_inv _ Htok) as [Hne Hall].
  assert (Hblack : forallb (fun c => negb (is_white c)) tok = true).
  { revert Hall. apply all_in_forall. reflexivity. }
  assert (Hl : blank (drop_while (fun c => negb (is_white c))
                        (drop_while is_white (wa ++ tok ++ wb))) = true).
  { rewrite drop_while_app by assumption.
    rewrite (drop_while_id is_white) by now apply header_token_halts_app.
    rewrite drop_while_app by assumption.
    now apply drop_while_forallb. }
  rewrite Heq in Hl.
  apply has_black_split in Ha as (a0 & c & a1 & -> & Hc).
  rewrite <- app_assoc in Hl. simpl in Hl.
  destruct (drop_while_keeps is_white a0 c (a1 ++ w :: b) Hc) as (a' & E).
  rewrite E in Hl.
  replace (a' ++ c :: a1 ++ w :: b) with ((a' ++ c :: a1) ++ w :: b) in Hl
    by now rewrite <- app_assoc.
  destruct (drop_while_keeps (fun c => negb (is_white c)) (a' ++ c :: a1) w b)
    as (a'' & E'); [now rewrite Hw|].
  rewrite E' in Hl. apply blank_has_black in Hl.
  unfold has_black in Hl, Hb. rewrite existsb_app in Hl. simpl in Hl.
  rewrite Hb, !orb_true_r in Hl. discriminate.
Qed.

(** ** Tab expansion, whatever the column *)

Lemma expandtabs_from_cons (line_pos : nat) (ch : char) (r : str) :
  expandtabs_from line_pos (ch :: r)
  = if N.eqb ch TAB then
      repeat SPACE (8 - line_pos mod 8)
      ++ expandtabs_from (line_pos + (8 - line_pos mod 8)) r
    else
      ch :: expandtabs_from
              (if N.eqb ch NEWLINE || N.eqb ch RETURN then 0 else S line_pos) r.
Proof. reflexivity. Qed.

Lemma expandtabs_expansion (s : str) (line_pos : nat) :
  expansion s (expandtabs_from line_pos s).
Proof.
  revert line_pos. induction s as [|c r IH]; intros k.
  - constructor.
  - rewrite expandtabs_from_cons.
    destruct (N.eqb_spec c TAB) as [->|Hc].
    + assert (E : exists j, 8 - k mod 8 = S j).
      { pose proof (Nat.mod_upper_bound k 8). exists (7 - k mod 8). lia. }
      destruct E as [j ->]. apply expansion_tab, IH.
    + now apply expansion_chr.
Qed.

Lemma expansion_app_inv (a b e : str) :
  expansion (a ++ b) e ->
  exists ea eb, e = ea ++ eb /\ expansion a ea /\ expansion b eb.
Proof.
  revert e. induction a as [|c r IH]; intros e H; simpl in H.
  - exists [], e. repeat split; [constructor | assumption].
  - inversion H as [|k r' e' Hr|c' r' e' Hc Hr]; subst.
    + destruct (IH _ Hr) as (ea & eb & -> & Ha & Hb).
      exists (repeat SPACE (S k) ++ ea), eb. repeat split.
      * now rewrite app_assoc.
      * now constructor.
      * assumption.
    + destruct (IH _ Hr) as (ea & eb & -> & Ha & Hb).
      exists (c :: ea), eb. repeat split; [now constructor | assumption].
Qed.

Lemma expansion_cons_inv (c : char) (b e : str) :
  c <> TAB -> expansion (c :: b) e -> exists eb, e = c :: eb /\ expansion b eb.
Proof.
  intros Hc H. inversion H; subst; [congruence|]. now eexists.
Qed.

Lemma count_spaces (c : char) (k : nat) :
  c <> SPACE -> count c (repeat SPACE k) = 0.
Proof.
  intros Hc. induction k as [|k IH]; simpl; [reflexivity|].
  rewrite count_cons_neq by congruence. exact IH.
Qed.

Lemma blank_spaces (k : nat) : blank (repeat SPACE k) = true.
Proof. induction k as [|k IH]; simpl; [reflexivity | exact IH]. Qed.

Lemma expansion_count (c : char) (a e : str) :
  c <> TAB -> c <> SPACE -> expansion a e -> count c e = count c a.
Proof.
  intros Ht Hs H. induction H as [|k r e H IH|x r e Hx H IH].
  - reflexivity.
  - rewrite count_app, count_spaces by assumption.
    rewrite count_cons_neq by congruence. exact IH.
  - destruct (N.eq_dec x c) as [->|Hxc].
    + rewrite !count_cons_eq. now rewrite IH.
    + rewrite !count_cons_neq by assumption. exact IH.
Qed.

Lemma expansion_blank (a e : str) : expansion a e -> blank e = blank a.
Proof.
  intros H. induction H as [|k r e H IH|x r e Hx H IH].
  - reflexivity.
  - unfold blank in *. rewrite forallb_app. fold (blank (repeat SPACE (S k))).
    rewrite blank_spaces. simpl. exact IH.
  - unfold blank in *. simpl. now rewrite IH.
Qed.

Lemma expansion_has_black (a e : str) :
  expansion a e -> has_black e = has_black a.
Proof.
  intros H. induction H as [|k r e H IH|x r e Hx H IH].
  - reflexivity.
  - unfold has_black in *. rewrite existsb_app.
    fold (has_black (repeat SPACE (S k))).
    rewrite (blank_has_black _ (blank_spaces (S k))). simpl. exact IH.
  - unfold has_black in *. simpl. now rewrite IH.
Qed.

Lemma expansion_preParse (a e : str) :
  expansion a e -> hd_error (preParse e) = hd_error (preParse a).
Proof.
  intros H. induction H as [|k r e H IH|x r e Hx H IH].
  - reflexivity.
  - rewrite preParse_app by apply blank_spaces. exact IH.
  - unfold preParse in *. simpl. now destruct (is_white x).
Qed.

Lemma expansion_white (w : char) (e : str) :
  is_white w = true -> expansion [w] e ->
  exists w' e', e = w' :: e' /\ is_white w' = true /\ blank e' = true.
Proof.
  intros Hw H. inversion H as [|k r' e' Hr|c' r' e' Hc Hr]; subst.
  - inversion Hr; subst. exists SPACE, (repeat SPACE k).
    rewrite app_nil_r. repeat split. apply blank_spaces.
  - inversion Hr; subst. now exists w, [].
Qed.

(** ** The pieces of an accepted text *)

Lemma header_at_field (text tok rest : str) :
  header_at text tok rest ->
  exists w x, blank w = true /\ field x tok
              /\ text = w ++ LBRACKET :: x ++ RBRACKET :: rest.
Proof.
  intros (r1 & r2 & (w & Hw & ->) & (w2 & Hw2 & -> & Hne & Hall & _ & _)
          & (w3 & Hw3 & ->)).
  exists w, (w2 ++ tok ++ w3). repeat split.
  - assumption.
  - exists w2, w3. repeat split; try assumption.
    destruct tok; [congruence | exact Hall].
  - now rewrite <- !app_assoc.
Qed.

Lemma field_counts (x tok : str) :
  field x tok -> count LBRACKET x = 0 /\ count RBRACKET x = 0.
Proof.
  intros (a & b & -> & Ha & Hb & Htok).
  apply header_token_inv in Htok as [_ Hall].
  rewrite !count_app.
  rewrite !(count_blank _ a), !(count_blank _ b) by (assumption || reflexivity).
  rewrite !(count_header _ tok) by (assumption || reflexivity).
  now split.
Qed.

Lemma log_at_fields (text s t n m rest : str) :
  log_at text s t n m rest ->
  exists w1 x1 w2 x2 w3 x3 w4 r4,
    text = w1 ++ LBRACKET :: x1 ++ RBRACKET :: w2 ++ LBRACKET :: x2
           ++ RBRACKET :: w3 ++ LBRACKET :: x3 ++ RBRACKET :: w4 ++ COLON :: r4
    /\ (blank w1 = true /\ blank w2 = true /\ blank w3 = true
        /\ blank w4 = true)
    /\ (field x1 s /\ field x2 t /\ field x3 n)
    /\ word_at message_chars r4 m rest.
Proof.
  intros (r1 & r2 & r3 & r4 & Hs & Ht & Hn & (w4 & Hw4 & ->) & Hm).
  apply header_at_field in Hs as (w1 & x1 & Hw1 & Hx1 & ->).
  apply header_at_field in Ht as (w2 & x2 & Hw2 & Hx2 & ->).
  apply header_at_field in Hn as (w3 & x3 & Hw3 & Hx3 & ->).
  exists w1, x1, w2, x2, w3, x3, w4, r4. now repeat split.
Qed.

Ltac neq := let E := fresh in intro E; vm_compute in E; discriminate E.

Ltac count_norm :=
  repeat first [ rewrite count_app | rewrite count_cons_eq
               | rewrite count_cons_neq by neq ].

Ltac app_norm := repeat (rewrite <- app_assoc || rewrite <- app_comm_cons).

Lemma brackets_app (a b : str) : brackets (a ++ b) = brackets a ++ brackets b.
Proof. apply filter_app. Qed.

Lemma brackets_cons (c : char) (s : str) :
  brackets (c :: s) = if is_bracket c then c :: brackets s else brackets s.
Proof. reflexivity. Qed.

Lemma brackets_absent (s : str) :
  forallb (fun c => negb (is_bracket c)) s = true -> brackets s = [].
Proof.
  unfold brackets. induction s as [|c r IH]; simpl; [reflexivity|].
  intros H. apply andb_prop in H as [Hc Hr].
  apply negb_true_iff in Hc. rewrite Hc. now apply IH.
Qed.

Lemma brackets_blank (w : str) : blank w = true -> brackets w = [].
Proof.
  intros H. apply brackets_absent.
  unfold blank in H. rewrite forallb_forall in H |- *.
  intros c Hc. apply H in Hc. revert Hc.
  apply (chr_in_forall (fun c => negb (is_bracket c))). reflexivity.
Qed.

Lemma brackets_field (x tok : str) : field x tok -> brackets x = [].
Proof.
  intros (a & b & -> & Ha & Hb & Htok).
  apply header_token_inv in Htok as [_ Hall].
  rewrite !brackets_app, (brackets_blank _ Ha), (brackets_blank _ Hb).
  rewrite (brackets_absent tok); [reflexivity|].
  revert Hall. apply all_in_forall. reflexivity.
Qed.

Lemma expansion_brackets (a e : str) :
  expansion a e -> brackets e = brackets a.
Proof.
  intros H. induction H as [|k r e H IH|x r e Hx H IH].
  - reflexivity.
  - rewrite brackets_app, (brackets_blank _ (blank_spaces (S k))).
    rewrite brackets_cons. exact IH.
  - rewrite !brackets_cons. now rewrite IH.
Qed.

Lemma count_brackets (c : char) (s : str) :
  is_bracket c = true -> count c (brackets s) = count c s.
Proof.
  intros Hc. unfold brackets. induction s as [|x r IH]; simpl; [reflexivity|].
  destruct (N.eq_dec x c) as [->|Hx].
  - rewrite Hc, !count_cons_eq. now rewrite IH.
  - destruct (is_bracket x); rewrite !count_cons_neq by assumption; exact IH.
Qed.

(** A line with fewer than three brackets of one kind lacks a bracket. *)
Lemma few_brackets (line : str) :
  count LBRACKET line < 3 \/ count RBRACKET line < 3 -> lacks_bracket line.
Proof.
  intros H E.
  rewrite <- (count_brackets LBRACKET line), <- (count_brackets RBRACKET line)
    in H by reflexivity.
  rewrite <- (firstn_skipn 6 (brackets line)), E in H.
  rewrite !count_app in H.
  change (count LBRACKET
            [LBRACKET; RBRACKET; LBRACKET; RBRACKET; LBRACKET; RBRACKET])
    with 3 in H.
  change (count RBRACKET
            [LBRACKET; RBRACKET; LBRACKET; RBRACKET; LBRACKET; RBRACKET])
    with 3 in H.
  lia.
Qed.

(** An accepted text begins, as far as brackets go, with the three pairs of
    its fields. *)
Lemma log_at_brackets (text s t n m rest : str) :
  log_at text s t n m rest ->
  firstn 6 (brackets text)
  = [LBRACKET; RBRACKET; LBRACKET; RBRACKET; LBRACKET; RBRACKET].
Proof.
  intros H.
  apply log_at_fields in H
    as (w1 & x1 & w2 & x2 & w3 & x3 & w4 & r4 & -> & (H1 & H2 & H3 & H4)
        & (F1 & F2 & F3) & _).
  repeat (rewrite brackets_app || rewrite brackets_cons).
  rewrite (brackets_blank _ H1), (brackets_blank _ H2), (brackets_blank _ H3).
  rewrite (brackets_field F1), (brackets_field F2), (brackets_field F3).
  reflexivity.
Qed.

Lemma log_at_third_bracket (text s t n m rest : str) :
  log_at text s t n m rest ->
  exists h w4 r4,
    text = h ++ RBRACKET :: w4 ++ COLON :: r4 /\ count RBRACKET h = 2
    /\ blank w4 = true /\ word_at message_chars r4 m rest.
Proof.
  intros H.
  apply log_at_fields in H
    as (w1 & x1 & w2 & x2 & w3 & x3 & w4 & r4 & -> & (H1 & H2 & H3 & H4)
        & (F1 & F2 & F3) & Hm).
  exists (w1 ++ LBRACKET :: x1 ++ RBRACKET :: w2 ++ LBRACKET :: x2
          ++ RBRACKET :: w3 ++ LBRACKET :: x3), w4, r4.
  repeat split; try assumption.
  - now app_norm.
  - apply field_counts in F1 as [_ F1], F2 as [_ F2], F3 as [_ F3].
    count_norm. rewrite F1, F2, F3.
    now rewrite !(count_blank RBRACKET) by (assumption || reflexivity).
Qed.

(** In an accepted text a colon comes, after whitespace at most, behind the
    third closing bracket. *)
Lemma log_at_colon (text s t n m rest h rest' : str) :
  log_at text s t n m rest ->
  text = h ++ RBRACKET :: rest' -> count RBRACKET h = 2 ->
  hd_error (preParse rest') = Some COLON.
Proof.
  intros H Heq Hc.
  apply log_at_third_bracket in H as (h' & w4 & r4 & -> & Hc' & Hw4 & _).
  apply split_unique in Heq as [_ <-]; [|congruence].
  now rewrite preParse_app.
Qed.

(** In an accepted text the message after that colon is not blank. *)
Lemma log_at_message (text s t n m rest h g rest' : str) :
  log_at text s t n m rest ->
  text = h ++ RBRACKET :: g ++ COLON :: rest' -> count RBRACKET h = 2 ->
  blank g = true -> has_black rest' = true.
Proof.
  intros H Heq Hc Hg.
  apply log_at_third_bracket in H as (h' & w4 & r4 & -> & Hc' & Hw4 & Hm).
  apply split_unique in Heq as [_ Heq]; [|congruence].
  apply split_unique in Heq as [_ <-];
    [|now rewrite !(count_blank COLON) by (assumption || reflexivity)].
  destruct Hm as (w & _ & -> & Hne & _ & Hb & _).
  destruct m as [|c m']; [congruence|]. simpl in Hb.
  unfold has_black. rewrite existsb_app. simpl. rewrite Hb.
  now rewrite orb_true_r.
Qed.

(** In an accepted text what stands between one of the first three opening
    brackets and the next closing bracket is a field. *)
Lemma log_at_field (text s t n m rest pre x post : str) :
  log_at text s t n m rest ->
  text = pre ++ LBRACKET :: x ++ RBRACKET :: post ->
  count LBRACKET pre < 3 -> count RBRACKET x = 0 ->
  exists tok, field x tok.
Proof.
  intros H Heq Hpre Hx.
  apply log_at_fields in H
    as (w1 & x1 & w2 & x2 & w3 & x3 & w4 & r4 & -> & (H1 & H2 & H3 & H4)
        & (F1 & F2 & F3) & _).
  pose proof (field_counts F1) as [L1 R1].
  pose proof (field_counts F2) as [L2 R2].
  pose proof (field_counts F3) as [L3 R3].
  assert (W : forall w, blank w = true -> count LBRACKET w = 0)
    by (intros w Hw; now apply count_blank).
  destruct (count LBRACKET pre) as [|[|[|k]]] eqn:E; [| | |lia].
  - apply split_unique in Heq as [_ Heq]; [|now rewrite W].
    apply split_unique in Heq as [<- _]; [|congruence]. now exists s.
  - replace (w1 ++ LBRACKET :: x1 ++ RBRACKET :: w2 ++ LBRACKET :: x2
             ++ RBRACKET :: w3 ++ LBRACKET :: x3 ++ RBRACKET :: w4
             ++ COLON :: r4)
      with ((w1 ++ LBRACKET :: x1 ++ RBRACKET :: w2) ++ LBRACKET :: x2
            ++ RBRACKET :: w3 ++ LBRACKET :: x3 ++ RBRACKET :: w4
            ++ COLON :: r4) in Heq by now app_norm.
    apply split_unique in Heq as [_ Heq];
      [|count_norm; rewrite L1, !W by assumption; lia].
    apply split_unique in Heq as [<- _]; [|congruence]. now exists t.
  - replace (w1 ++ LBRACKET :: x1 ++ RBRACKET :: w2 ++ LBRACKET :: x2
             ++ RBRACKET :: w3 ++ LBRACKET :: x3 ++ RBRACKET :: w4
             ++ COLON :: r4)
      with ((w1 ++ LBRACKET :: x1 ++ RBRACKET :: w2 ++ LBRACKET :: x2
             ++ RBRACKET :: w3) ++ LBRACKET :: x3 ++ RBRACKET :: w4
            ++ COLON :: r4) in Heq by now app_norm.
    apply split_unique in Heq as [_ Heq];
      [|count_norm; rewrite L1, L2, !W by assumption; lia].
    apply split_unique in Heq as [<- _]; [|congruence]. now exists n.
Qed.

Lemma parse_string_log_at (line : str) (r : ParseResults) :
  parse_string __define_patterns line = Some r <->
  exists s t n m rest,
    r = log_results s t n m /\ log_at (expandtabs line) s t n m rest.
Proof.
  unfold parse_string. split.
  - destruct (__define_patterns (expandtabs line)) as [[r' rest]|] eqn:E;
      [|discriminate].
    intros H. injection H as <-.
    apply define_patterns_iff in E as (s & t & n & m & -> & H).
    now exists s, t, n, m, rest.
  - intros (s & t & n & m & rest & -> & H).
    assert (E : __define_patterns (expandtabs line)
                = Some (log_results s t n m, rest)).
    { apply define_patterns_iff. now exists s, t, n, m. }
    now rewrite E.
Qed.

(** ** Lines the pattern rejects *)

Lemma lacks_bracket_fails (line : str) :
  lacks_bracket line -> parse_string __define_patterns line = None.
Proof.
  intros H.
  destruct (parse_string __define_patterns line) as [r|] eqn:E; [|reflexivity].
  exfalso. apply H.
  apply parse_string_log_at in E as (s & t & n & m & rest & _ & Hlog).
  apply log_at_brackets in Hlog.
  unfold expandtabs in Hlog.
  now rewrite (expansion_brackets (expandtabs_expansion line 0)) in Hlog.
Qed.

Lemma lacks_colon_fails (line : str) :
  lacks_colon line -> parse_string __define_patterns line = None.
Proof.
  intros (h & rest' & -> & Hc & Hhd).
  destruct (parse_string __define_patterns _) as [r|] eqn:E; [|reflexivity].
  exfalso.
  apply parse_string_log_at in E as (s & t & n & m & rest & _ & Hlog).
  pose proof (expandtabs_expansion (h ++ RBRACKET :: rest') 0) as X.
  fold (expandtabs (h ++ RBRACKET :: rest')) in X.
  apply expansion_app_inv in X as (eh & e' & Heq & Xh & X').
  apply expansion_cons_inv in X' as (er & -> & Xr); [|neq].
  apply Hhd. rewrite <- (expansion_preParse Xr).
  eapply log_at_colon; [exact Hlog | exact Heq |].
  now rewrite (@expansion_count RBRACKET _ _ ltac:(neq) ltac:(neq) Xh).
Qed.

Lemma empty_message_fails (line : str) :
  empty_message line -> parse_string __define_patterns line = None.
Proof.
  intros (h & g & rest' & -> & Hc & Hg & Hrest).
  destruct (parse_string __define_patterns _) as [r|] eqn:E; [|reflexivity].
  exfalso.
  apply parse_string_log_at in E as (s & t & n & m & rest & _ & Hlog).
  pose proof (expandtabs_expansion (h ++ RBRACKET :: g ++ COLON :: rest') 0)
    as X.
  fold (expandtabs (h ++ RBRACKET :: g ++ COLON :: rest')) in X.
  apply expansion_app_inv in X as (eh & e' & Heq & Xh & X').
  apply expansion_cons_inv in X' as (e'' & -> & X'); [|neq].
  apply expansion_app_inv in X' as (eg & e' & -> & Xg & X').
  apply expansion_cons_inv in X' as (er & -> & Xr); [|neq].
  assert (Hb : has_black er = true).
  { eapply log_at_message; [exact Hlog | exact Heq | |].
    - now rewrite (@expansion_count RBRACKET _ _ ltac:(neq) ltac:(neq) Xh).
    - now rewrite (expansion_blank Xg). }
  rewrite (expansion_has_black Xr), (blank_has_black _ Hrest) in Hb.
  discriminate.
Qed.

Lemma white_inside_field_fails (line : str) :
  white_inside_field line -> parse_string __define_patterns line = None.
Proof.
  intros (pre & a & w & b & post & -> & Hpre & Hx & Hw & Ha & Hb).
  destruct (parse_string __define_patterns _) as [r|] eqn:E; [|reflexivity].
  exfalso.
  apply parse_string_log_at in E as (s & t & n & m & rest & _ & Hlog).
  pose proof (expandtabs_expansion
                (pre ++ LBRACKET :: (a ++ w :: b) ++ RBRACKET :: post) 0) as X.
  fold (expandtabs (pre ++ LBRACKET :: (a ++ w :: b) ++ RBRACKET :: post)) in X.
  apply expansion_app_inv in X as (epre & e' & Heq & Xpre & X').
  apply expansion_cons_inv in X' as (e'' & -> & X'); [|neq].
  apply expansion_app_inv in X' as (ex & e' & -> & Xx & X').
  apply expansion_cons_inv in X' as (epost & -> & Xpost); [|neq].
  assert (F : exists tok, field ex tok);
    [eapply log_at_field; [exact Hlog | exact Heq | |] | destruct F as (tok & F)].
  - now rewrite (@expansion_count LBRACKET _ _ ltac:(neq) ltac:(neq) Xpre).
  - now rewrite (@expansion_count RBRACKET _ _ ltac:(neq) ltac:(neq) Xx).
  - apply expansion_app_inv in Xx as (ea & e' & -> & Xa & X').
    apply (expansion_app_inv [w] b) in X' as (ew & eb & -> & Xw & Xb).
    apply (expansion_white Hw) in Xw as (w' & e' & -> & Hw' & He').
    eapply field_no_inner_white with (a := ea) (w := w') (b := e' ++ eb);
      [exact F | | | |].
    + reflexivity.
    + assumption.
    + now rewrite (expansion_has_black Xa).
    + unfold has_black. rewrite existsb_app. fold (has_black eb).
      rewrite (expansion_has_black Xb), Hb. apply orb_true_r.
Qed.

(** ** The message *)

Lemma word_at_run (chars text tok rest : str) :
  word_at chars text tok rest <->
  tok = take_while (fun c => chr_in c chars) (preParse text) /\ tok <> []
  /\ rest = drop_while (fun c => chr_in c chars) (preParse text).
Proof.
  split.
  - intros (w & Hw & -> & Hne & Hall & Hb & Hr).
    rewrite preParse_app by assumption.
    unfold preParse. rewrite drop_while_id
      by (destruct tok; [congruence | exact Hb]).
    rewrite take_while_app, drop_while_app by assumption.
    rewrite take_while_nil, drop_while_id by assumption.
    now rewrite app_nil_r.
  - intros (-> & Hne & ->).
    destruct (preParse_split text) as (w & Hw & Htext).
    pose proof (drop_while_halts is_white text) as Hh. fold (preParse text) in Hh.
    exists w. repeat split; try assumption.
    + now rewrite take_drop_while.
    + apply take_while_all.
    + destruct (preParse text) as [|c body]; [reflexivity|]. simpl in *.
      destruct (chr_in c chars); [exact Hh | reflexivity].
    + apply drop_while_halts.
Qed.

(** ** The two character sets, by code point *)

Lemma below_128 (f g : char -> bool) :
  forallb (fun c => Bool.eqb (f c) (g c)) (map N.of_nat (seq 0 128)) = true ->
  forall c, (c < 128)%N -> f c = g c.
Proof.
  intros H c Hc. rewrite forallb_forall in H.
  apply eqb_prop, H. rewrite <- (N2Nat.id c).
  apply in_map, in_seq. lia.
Qed.

(** A bracket field is made of the printable ASCII characters other than
    the space and the two square brackets. *)
Lemma header_chars_spec (c : char) :
  chr_in c header_chars
  = ((33 <=? c) && (c <=? 126) && negb (c =? LBRACKET)
     && negb (c =? RBRACKET))%N.
Proof.
  destruct (N.ltb_spec c 128) as [Hc|Hc].
  - revert c Hc. apply below_128. vm_compute. reflexivity.
  - destruct (chr_in c header_chars) eqn:E.
    + apply (chr_in_forall (fun c => (c <? 128)%N)) in E; [|reflexivity].
      apply N.ltb_lt in E. lia.
    + symmetry. assert (H : (c <=? 126)%N = false) by (apply N.leb_gt; lia).
      rewrite H. now rewrite andb_false_r.
Qed.

(** The message is made of the printable ASCII characters, the space and
    the square brackets included. *)
Lemma message_chars_spec (c : char) :
  chr_in c message_chars = ((32 <=? c) && (c <=? 126))%N.
Proof.
  destruct (N.ltb_spec c 128) as [Hc|Hc].
  - revert c Hc. apply below_128. vm_compute. reflexivity.
  - destruct (chr_in c message_chars) eqn:E.
    + apply (chr_in_forall (fun c => (c <? 128)%N)) in E; [|reflexivity].
      apply N.ltb_lt in E. lia.
    + symmetry. assert (H : (c <=? 126)%N = false) by (apply N.leb_gt; lia).
      rewrite H. now rewrite andb_false_r.
Qed.

(** ** What follows the message *)

Lemma halts_app (p : char -> bool) (s x : str) :
  s <> [] -> halts p (s ++ x) = halts p s.
Proof. destruct s; [congruence | reflexivity]. Qed.

Lemma lit_at_app (c : char) (text rest x : str) :
  lit_at c text rest -> lit_at c (text ++ x) (rest ++ x).
Proof.
  intros (w & Hw & ->). exists w. split; [assumption|].
  now rewrite <- app_assoc.
Qed.

Lemma word_at_app (chars text tok rest x : str) :
  word_at chars text tok rest ->
  halts (fun c => chr_in c chars) (rest ++ x) = true ->
  word_at chars (text ++ x) tok (rest ++ x).
Proof.
  intros (w & Hw & -> & Hne & Hall & Hb & _) Hr.
  exists w. repeat split; try assumption.
  now rewrite <- !app_assoc.
Qed.

Lemma header_at_app (text tok rest x : str) :
  header_at text tok rest -> header_at (text ++ x) tok (rest ++ x).
Proof.
  intros (r1 & r2 & H1 & H2 & H3).
  exists (r1 ++ x), (r2 ++ x). repeat split.
  - now apply lit_at_app.
  - apply word_at_app; [assumption|].
    destruct H2 as (_ & _ & _ & _ & _ & _ & Hr).
    destruct H3 as (w & _ & ->).
    rewrite halts_app; [assumption | now destruct w].
  - now apply lit_at_app.
Qed.

Lemma expandtabs_from_app (line_pos : nat) (a b : str) :
  exists line_pos',
    expandtabs_from line_pos (a ++ b)
    = expandtabs_from line_pos a ++ expandtabs_from line_pos' b.
Proof.
  revert line_pos. induction a as [|c r IH]; intros k.
  - now exists k.
  - simpl app. rewrite !expandtabs_from_cons.
    destruct (N.eqb c TAB).
    + destruct (IH (k + (8 - k mod 8))) as (k' & ->).
      exists k'. now rewrite app_assoc.
    + destruct (IH (if (c =? NEWLINE)%N || (c =? RETURN)%N then 0 else S k))
        as (k' & ->).
      now exists k'.
Qed.

(** Parsing stops at the first character the message cannot take: what
    stands from there on changes nothing. *)
Lemma trailing_text_ignored (line : str) (r : ParseResults) (c : char)
      (junk : str) :
  parse_string __define_patterns line = Some r ->
  chr_in c message_chars = false -> c <> TAB ->
  parse_string __define_patterns (line ++ c :: junk) = Some r.
Proof.
  intros H Hc Ht.
  apply parse_string_log_at in H
    as (s & t & n & m & rest & -> & r1 & r2 & r3 & r4 & Hs & Hh & Hn & Hcol & Hm).
  apply parse_string_log_at.
  unfold expandtabs.
  destruct (expandtabs_from_app 0 line (c :: junk)) as (k & ->).
  fold (expandtabs line). rewrite expandtabs_from_cons.
  apply N.eqb_neq in Ht. rewrite Ht.
  set (x := c :: expandtabs_from _ junk).
  exists s, t, n, m, (rest ++ x). split; [reflexivity|].
  exists (r1 ++ x), (r2 ++ x), (r3 ++ x), (r4 ++ x). repeat split.
  - now apply header_at_app.
  - now apply header_at_app.
  - now apply header_at_app.
  - now apply lit_at_app.
  - apply word_at_app; [assumption|].
    destruct Hm as (_ & _ & _ & _ & _ & _ & Hr).
    destruct rest as [|y rest']; [|exact Hr].
    simpl. now rewrite Hc.
Qed.

(** ** The parts of a line and the shape the pattern accepts *)

Lemma blank_not_bracket (w : str) :
  blank w = true -> forallb not_bracket w = true.
Proof.
  unfold blank. rewrite !forallb_forall. intros H c Hc.
  apply H in Hc. revert Hc. apply (chr_in_forall not_bracket). reflexivity.
Qed.

Lemma blank_halts_black (w : str) :
  blank w = true -> halts is_black w = true.
Proof.
  destruct w as [|c r]; [reflexivity|]. simpl. intros H.
  apply andb_prop in H as [Hc _]. unfold is_black. now rewrite Hc.
Qed.

Lemma header_token_black (tok : str) :
  header_token tok = true -> forallb is_black tok = true.
Proof.
  intros H. apply header_token_inv in H as [_ H].
  revert H. apply all_in_forall. reflexivity.
Qed.

Lemma field_not_bracket (x tok : str) :
  field x tok -> forallb not_bracket x = true.
Proof.
  intros (a & b & -> & Ha & Hb & Htok).
  rewrite !forallb_app, (blank_not_bracket _ Ha), (blank_not_bracket _ Hb).
  apply header_token_inv in Htok as [_ Htok].
  rewrite (all_in_forall not_bracket header_chars tok); [reflexivity| |exact Htok].
  reflexivity.
Qed.

Lemma bracket_group_iff (s x rest : str) :
  bracket_group s = Some (x, rest) <->
  exists w, blank w = true /\ forallb not_bracket x = true
            /\ s = w ++ LBRACKET :: x ++ RBRACKET :: rest.
Proof.
  unfold bracket_group. split.
  - destruct (preParse_split s) as (w & Hw & Hs).
    destruct (preParse s) as [|c r] eqn:E; [discriminate|].
    destruct (N.eqb_spec c LBRACKET) as [->|]; [|discriminate].
    pose proof (take_drop_while not_bracket r) as Hr.
    pose proof (take_while_all not_bracket r) as Hx.
    destruct (drop_while not_bracket r) as [|d rest'] eqn:E2; [discriminate|].
    destruct (N.eqb_spec d RBRACKET) as [->|]; [|discriminate].
    intros H. injection H as <- <-. exists w. repeat split; try assumption.
    now rewrite Hr.
  - intros (w & Hw & Hx & ->).
    rewrite preParse_app by assumption. unfold preParse.
    rewrite (drop_while_id is_white) by reflexivity.
    rewrite N.eqb_refl.
    rewrite drop_while_app, take_while_app by assumption.
    rewrite (drop_while_id not_bracket), (take_while_nil not_bracket)
      by reflexivity.
    now rewrite N.eqb_refl, app_nil_r.
Qed.

Lemma is_field_iff (x : str) :
  is_field x = true <-> exists tok, field x tok.
Proof.
  unfold is_field. split.
  - intros H. apply andb_prop in H as [Htok Hb].
    exists (take_while is_black (drop_while is_white x)),
      (take_while is_white x), (drop_while is_black (drop_while is_white x)).
    repeat split; try assumption.
    + now rewrite !take_drop_while.
    + apply take_while_all.
  - intros (tok & a & b & -> & Ha & Hb & Htok).
    rewrite drop_while_app by assumption.
    rewrite (drop_while_id is_white) by now apply header_token_halts_app.
    rewrite take_while_app, drop_while_app by now apply header_token_black.
    rewrite (take_while_nil is_black), (drop_while_id is_black)
      by now apply blank_halts_black.
    now rewrite app_nil_r, Htok, Hb.
Qed.

Lemma header_at_group (text tok rest : str) :
  header_at text tok rest <->
  exists x, bracket_group text = Some (x, rest) /\ field x tok.
Proof.
  split.
  - intros H. apply header_at_field in H as (w & x & Hw & Hx & ->).
    exists x. split; [|exact Hx].
    apply bracket_group_iff. exists w. repeat split; try assumption.
    now apply field_not_bracket in Hx.
  - intros (x & Hg & a & b & -> & Ha & Hb & Htok).
    apply bracket_group_iff in Hg as (w & Hw & _ & ->).
    destruct (header_token_inv _ Htok) as [Hne Hall].
    exists (a ++ tok ++ b ++ RBRACKET :: rest), (b ++ RBRACKET :: rest).
    repeat split.
    + exists w. split; [assumption|]. now rewrite <- !app_assoc.
    + exists a. repeat split; try assumption.
      * now apply header_token_halts.
      * destruct b as [|c b']; [reflexivity|]. simpl in Hb |- *.
        apply andb_prop in Hb as [Hc _].
        destruct (chr_in c header_chars) eqn:E; [|reflexivity].
        apply header_chars_black in E. congruence.
    + now exists b.
Qed.

Lemma colon_then_iff (s rest : str) :
  colon_then s = Some rest <-> lit_at COLON s rest.
Proof.
  unfold colon_then, lit_at. split.
  - destruct (preParse_split s) as (w & Hw & Hs).
    destruct (preParse s) as [|c r] eqn:E; [discriminate|].
    destruct (N.eqb_spec c COLON) as [->|]; [|discriminate].
    intros H. injection H as <-. now exists w.
  - intros (w & Hw & ->).
    rewrite preParse_app by assumption. unfold preParse.
    rewrite (drop_while_id is_white) by reflexivity.
    now rewrite N.eqb_refl.
Qed.

Lemma has_message_iff (s : str) :
  has_message s = true <-> message_of s <> [].
Proof.
  unfold has_message, message_of.
  destruct (preParse s) as [|c r]; simpl.
  - split; [discriminate | congruence].
  - destruct (chr_in c message_chars); split; congruence.
Qed.

(** The lines the pattern accepts are those with three fields, a colon and
    a message. *)
Lemma accepted_iff (text : str) :
  accepted text = true <-> exists s t n m rest, log_at text s t n m rest.
Proof.
  unfold accepted, bracket_groups. split.
  - destruct (bracket_group text) as [[x1 r1]|] eqn:E1; [|discriminate].
    destruct (bracket_group r1) as [[x2 r2]|] eqn:E2; [|discriminate].
    destruct (bracket_group r2) as [[x3 r3]|] eqn:E3; [|discriminate].
    destruct (colon_then r3) as [r4|] eqn:E4;
      [|rewrite andb_false_r; discriminate].
    intros H. apply andb_prop in H as [H Hm].
    apply andb_prop in H as [H H3]. apply andb_prop in H as [H1 H2].
    apply is_field_iff in H1 as (s & H1), H2 as (t & H2), H3 as (n & H3).
    apply has_message_iff in Hm.
    exists s, t, n, (message_of r4),
      (drop_while (fun c => chr_in c message_chars) (preParse r4)),
      r1, r2, r3, r4.
    repeat split.
    + apply header_at_group. now exists x1.
    + apply header_at_group. now exists x2.
    + apply header_at_group. now exists x3.
    + now apply colon_then_iff.
    + apply word_at_run. now repeat split.
  - intros (s & t & n & m & rest & r1 & r2 & r3 & r4 & Hs & Ht & Hn & Hc & Hm).
    apply header_at_group in Hs as (x1 & -> & F1).
    apply header_at_group in Ht as (x2 & -> & F2).
    apply header_at_group in Hn as (x3 & -> & F3).
    apply colon_then_iff in Hc as ->.
    apply word_at_run in Hm as (Hm & Hne & _).
    assert (H1 : is_field x1 = true) by (apply is_field_iff; now exists s).
    assert (H2 : is_field x2 = true) by (apply is_field_iff; now exists t).
    assert (H3 : is_field x3 = true) by (apply is_field_iff; now exists n).
    rewrite H1, H2, H3. simpl. apply has_message_iff.
    unfold message_of. now rewrite <- Hm.
Qed.

Lemma parse_string_accepted (line : str) :
  parse_string __define_patterns line = None
  <-> accepted (expandtabs line) = false.
Proof.
  split.
  - intros H. destruct (accepted (expandtabs line)) eqn:E; [|reflexivity].
    apply accepted_iff in E as (s & t & n & m & rest & E).
    assert (H' : parse_string __define_patterns line
                 = Some (log_results s t n m))
      by (apply parse_string_log_at; now exists s, t, n, m, rest).
    congruence.
  - intros H.
    destruct (parse_string __define_patterns line) as [r|] eqn:E;
      [|reflexivity].
    apply parse_string_log_at in E as (s & t & n & m & rest & _ & E).
    assert (H' : accepted (expandtabs line) = true)
      by (apply accepted_iff; now exists s, t, n, m, rest).
    congruence.
Qed.

(** ** The parts of a line do not depend on how its tabs are expanded *)

Lemma forallb_spaces (p : char -> bool) (k : nat) :
  p SPACE = true -> forallb p (repeat SPACE k) = true.
Proof.
  intros H. induction k as [|k IH]; simpl; [reflexivity|]. now rewrite H, IH.
Qed.

Lemma expansion_drop_while (p : char -> bool) (s e : str) :
  p TAB = p SPACE -> expansion s e ->
  expansion (drop_while p s) (drop_while p e).
Proof.
  intros Hp H. induction H as [|k r e H IH|c r e Hc H IH].
  - constructor.
  - destruct (p SPACE) eqn:E.
    + rewrite drop_while_app by now apply forallb_spaces.
      simpl. now rewrite Hp.
    + simpl. rewrite Hp, E. now apply (expansion_tab k).
  - simpl. destruct (p c); [exact IH | now constructor].
Qed.

Lemma expansion_take_while (p : char -> bool) (s e : str) :
  p TAB = p SPACE -> expansion s e ->
  expansion (take_while p s) (take_while p e).
Proof.
  intros Hp H. induction H as [|k r e H IH|c r e Hc H IH].
  - constructor.
  - destruct (p SPACE) eqn:E.
    + rewrite take_while_app by now apply forallb_spaces.
      simpl. rewrite Hp. now apply expansion_tab.
    + simpl. rewrite Hp, E. constructor.
  - simpl. destruct (p c); [now constructor | constructor].
Qed.

Lemma expansion_no_tabs (a e : str) :
  expansion a e -> no_tabs a = true -> e = a.
Proof.
  intros H. induction H as [|k r e H IH|c r e Hc H IH]; simpl.
  - reflexivity.
  - discriminate.
  - intros Hn. apply andb_prop in Hn as [_ Hn]. now rewrite IH.
Qed.

Lemma black_no_tabs (s : str) : forallb is_black s = true -> no_tabs s = true.
Proof.
  unfold no_tabs. rewrite !forallb_forall. intros H c Hc.
  apply H in Hc. apply negb_true_iff, N.eqb_neq. intros ->. discriminate Hc.
Qed.

(** What [preParse] leaves of a text and of an expansion of it: nothing in
    both, or the same first character before an expansion. *)
Lemma expansion_after (p : char -> bool) (s e : str) :
  p TAB = true -> p SPACE = true -> expansion s e ->
  match drop_while p s, drop_while p e with
  | [], [] => True
  | c :: r, c' :: r' => c = c' /\ expansion r r'
  | _, _ => False
  end.
Proof.
  intros Ht Hs H.
  pose proof (drop_while_halts p s) as Hh.
  assert (Hp : p TAB = p SPACE) by congruence.
  pose proof (expansion_drop_while p Hp H) as X.
  destruct X as [|k r e' X|c r e' Hc X].
  - exact I.
  - simpl in Hh. rewrite Ht in Hh. discriminate.
  - now split.
Qed.

Lemma expansion_bracket_group (s e : str) :
  expansion s e ->
  match bracket_group s, bracket_group e with
  | Some (x, r), Some (x', r') => expansion x x' /\ expansion r r'
  | None, None => True
  | _, _ => False
  end.
Proof.
  intros H. unfold bracket_group, preParse.
  pose proof (@expansion_after is_white s e eq_refl eq_refl H) as X.
  destruct (drop_while is_white s) as [|c r];
    destruct (drop_while is_white e) as [|c' r']; try contradiction;
    [exact I|].
  destruct X as [<- X].
  destruct (N.eqb c LBRACKET); [|exact I].
  pose proof (@expansion_after not_bracket r r' eq_refl eq_refl X) as Y.
  destruct (drop_while not_bracket r) as [|d t];
    destruct (drop_while not_bracket r') as [|d' t']; try contradiction;
    [exact I|].
  destruct Y as [<- Y].
  destruct (N.eqb d RBRACKET); [|exact I].
  split; [|exact Y]. now apply expansion_take_while.
Qed.

Lemma expansion_bracket_groups (s e : str) :
  expansion s e ->
  match bracket_groups s, bracket_groups e with
  | Some (x1, x2, x3, r), Some (x1', x2', x3', r') =>
      expansion x1 x1' /\ expansion x2 x2' /\ expansion x3 x3'
      /\ expansion r r'
  | None, None => True
  | _, _ => False
  end.
Proof.
  intros H. unfold bracket_groups.
  pose proof (expansion_bracket_group H) as G1.
  destruct (bracket_group s) as [[x1 r1]|];
    destruct (bracket_group e) as [[x1' r1']|]; try contradiction; [|exact I].
  destruct G1 as [X1 G1]. apply expansion_bracket_group in G1 as G2.
  destruct (bracket_group r1) as [[x2 r2]|];
    destruct (bracket_group r1') as [[x2' r2']|]; try contradiction; [|exact I].
  destruct G2 as [X2 G2]. apply expansion_bracket_group in G2 as G3.
  destruct (bracket_group r2) as [[x3 r3]|];
    destruct (bracket_group r2') as [[x3' r3']|]; try contradiction; [|exact I].
  destruct G3 as [X3 G3]. now repeat split.
Qed.

Lemma expansion_is_field (x x' : str) :
  expansion x x' -> is_field x' = is_field x.
Proof.
  intros H. unfold is_field.
  pose proof (@expansion_drop_while is_white x x' eq_refl H) as Y.
  pose proof (@expansion_take_while is_black _ _ eq_refl Y) as T.
  pose proof (@expansion_drop_while is_black _ _ eq_refl Y) as D.
  apply expansion_no_tabs in T;
    [|apply black_no_tabs, take_while_all].
  now rewrite T, (expansion_blank D).
Qed.

Lemma expansion_colon_then (s e : str) :
  expansion s e ->
  match colon_then s, colon_then e with
  | Some r, Some r' => expansion r r'
  | None, None => True
  | _, _ => False
  end.
Proof.
  intros H. unfold colon_then, preParse.
  pose proof (@expansion_after is_white s e eq_refl eq_refl H) as X.
  destruct (drop_while is_white s) as [|c r];
    destruct (drop_while is_white e) as [|c' r']; try contradiction;
    [exact I|].
  destruct X as [<- X]. now destruct (N.eqb c COLON).
Qed.

Lemma expansion_has_message (s e : str) :
  expansion s e -> has_message e = has_message s.
Proof.
  intros H. unfold has_message, preParse.
  pose proof (@expansion_after is_white s e eq_refl eq_refl H) as X.
  destruct (drop_while is_white s) as [|c r];
    destruct (drop_while is_white e) as [|c' r']; try contradiction;
    [reflexivity|].
  now destruct X as [<- _].
Qed.

Lemma expansion_accepted (s e : str) :
  expansion s e -> accepted e = accepted s.
Proof.
  intros H. unfold accepted.
  pose proof (expansion_bracket_groups H) as G.
  destruct (bracket_groups s) as [[[[x1 x2] x3] r]|];
    destruct (bracket_groups e) as [[[[x1' x2'] x3'] r']|]; try contradiction;
    [|reflexivity].
  destruct G as (X1 & X2 & X3 & R).
  rewrite (expansion_is_field X1), (expansion_is_field X2),
    (expansion_is_field X3).
  pose proof (expansion_colon_then R) as C.
  destruct (colon_then r) as [a|]; destruct (colon_then r') as [a'|];
    try contradiction; [|reflexivity].
  now rewrite (expansion_has_message C).
Qed.

(** A line fails to parse exactly when it lacks one of its parts. *)
Lemma parse_string_rejects (line : str) :
  parse_string __define_patterns line = None
  <-> no_three_groups line \/ no_colon line \/ bad_field line
      \/ no_message line.
Proof.
  rewrite parse_string_accepted.
  unfold expandtabs. rewrite (expansion_accepted (expandtabs_expansion line 0)).
  unfold accepted, no_three_groups, no_colon, bad_field, no_message.
  destruct (bracket_groups line) as [[[[x1 x2] x3] r]|]; [|now split; auto].
  destruct (is_field x1 && is_field x2 && is_field x3) eqn:F.
  - destruct (colon_then r) as [rest|] eqn:C.
    + split.
      * intros H. simpl in H. right. right. right.
        now exists x1, x2, x3, r, rest.
      * intros [H|[H|[H|H]]].
        -- discriminate.
        -- destruct H as (? & ? & ? & ? & H & H'). injection H as <- <- <- <-.
           congruence.
        -- destruct H as (? & ? & ? & ? & H & H'). injection H as <- <- <- <-.
           congruence.
        -- destruct H as (? & ? & ? & ? & ? & H & H' & H'').
           injection H as <- <- <- <-. rewrite C in H'. injection H' as <-.
           exact H''.
    + split; [|reflexivity]. intros _. right. left. now exists x1, x2, x3, r.
  - split; [|reflexivity]. intros _. right. right. left.
    now exists x1, x2, x3, r.
Qed.

Lemma bracket_group_intro (w x rest : str) :
  blank w = true -> forallb not_bracket x = true ->
  bracket_group (w ++ LBRACKET :: x ++ RBRACKET :: rest) = Some (x, rest).
Proof. intros Hw Hx. apply bracket_group_iff. now exists w. Qed.

Lemma is_field_intro (a tok b : str) :
  blank a = true -> blank b = true -> header_token tok = true ->
  is_field (a ++ tok ++ b) = true.
Proof. intros Ha Hb Htok. apply is_field_iff. now exists tok, a, b. Qed.

Lemma colon_then_intro (w rest : str) :
  blank w = true -> colon_then (w ++ COLON :: rest) = Some rest.
Proof. intros Hw. apply colon_then_iff. now exists w. Qed.

(** Whitespace around the tokens, before the brackets and around the colon
    takes nothing from a line: it has its three fields, its colon and its
    message. *)
Lemma padded_line_accepted (g0 a1 s b1 g1 a2 t b2 g2 a3 n b3 g3 g4 m : str) :
  blank g0 = true -> blank g1 = true -> blank g2 = true ->
  blank g3 = true -> blank g4 = true ->
  blank a1 = true -> blank b1 = true -> blank a2 = true ->
  blank b2 = true -> blank a3 = true -> blank b3 = true ->
  header_token s = true -> header_token t = true -> header_token n = true ->
  message_text m = true ->
  accepted (g0 ++ LBRACKET :: (a1 ++ s ++ b1) ++ RBRACKET
            :: g1 ++ LBRACKET :: (a2 ++ t ++ b2) ++ RBRACKET
            :: g2 ++ LBRACKET :: (a3 ++ n ++ b3) ++ RBRACKET
            :: g3 ++ COLON :: g4 ++ m) = true.
Proof.
  intros G0 G1 G2 G3 G4 A1 B1 A2 B2 A3 B3 Hs Ht Hn Hm.
  assert (N1 : forallb not_bracket (a1 ++ s ++ b1) = true)
    by (apply (@field_not_bracket _ s); now exists a1, b1).
  assert (N2 : forallb not_bracket (a2 ++ t ++ b2) = true)
    by (apply (@field_not_bracket _ t); now exists a2, b2).
  assert (N3 : forallb not_bracket (a3 ++ n ++ b3) = true)
    by (apply (@field_not_bracket _ n); now exists a3, b3).
  unfold accepted, bracket_groups.
  rewrite !bracket_group_intro by assumption.
  rewrite !is_field_intro by assumption.
  rewrite colon_then_intro by assumption.
  simpl. unfold has_message. rewrite preParse_app by assumption.
  destruct (message_text_inv _ Hm) as (Hne & Hall & Hb).
  unfold preParse. rewrite drop_while_id by assumption.
  destruct m as [|c r]; [congruence|].
  unfold all_in in Hall. simpl in Hall. now apply andb_prop in Hall as [-> _].
Qed.

(** The lines told apart by counting their brackets are among the lines
    that lack one of their parts. *)
Lemma counted_defects_rejected (line : str) :
  lacks_bracket line \/ lacks_colon line \/ white_inside_field line
  \/ empty_message line ->
  no_three_groups line \/ no_colon line \/ bad_field line \/ no_message line.
Proof.
  intros H. apply parse_string_rejects.
  destruct H as [H|[H|[H|H]]].
  - now apply lacks_bracket_fails.
  - now apply lacks_colon_fails.
  - now apply white_inside_field_fails.
  - now apply empty_message_fails.
Qed.

(** * Properties of the line grammar and of the store *)

(** C1, as amended: for every line of the exact shape [[s] [t] [n]: m] in
    which s, t and n are non-empty and made of ASCII letters, digits and
    punctuation other than the square brackets, and m is non-empty, made of
    the allowed message characters and does not begin with a space,
    [parse_log] succeeds, returns the four fields in the order (s, t, n, m)
    and appends them to the corpus. *)
Theorem parse_log_well_formed (history : list Call) (s t n m : str) :
  header_token s = true -> header_token t = true -> header_token n = true ->
  message_text m = true ->
  parse_log (log_line s t n m) (after history)
  = (VResults (log_results s t n m),
     log_data_append (log_results s t n m) (after history))
  /\ as_list (log_results s t n m) = [s; t; n; m].
Proof.
  intros Hs Ht Hn Hm. split; [|reflexivity].
  unfold parse_log. rewrite after_pattern.
  now rewrite parse_string_line.
Qed.

Lemma parse_log_well_formed_witness :
  header_token (py "INFO") = true /\ header_token (py "1673415247.5") = true
  /\ header_token (py "talker") = true /\ message_text (py "hi [there]") = true
  /\ parse_log (log_line (py "INFO") (py "1673415247.5") (py "talker")
                  (py "hi [there]")) (after [])
     = (VResults (log_results (py "INFO") (py "1673415247.5") (py "talker")
                    (py "hi [there]")),
        log_data_append
          (log_results (py "INFO") (py "1673415247.5") (py "talker")
             (py "hi [there]")) (after [])).
Proof.
  repeat (split; [reflexivity|]).
  apply (parse_log_well_formed [] (py "INFO") (py "1673415247.5") (py "talker")
           (py "hi [there]")); reflexivity.
Defined.

(** C1 as stated fails: an empty bracket field has no whitespace and no
    bracket, yet the line does not parse; a field with a character outside
    ASCII does not parse either; and a message of allowed characters that
    begins with a space comes back without that space. *)
Lemma parse_log_plain_fields_counterexample :
  (plain_field [] = true /\ plain_field (py "1") = true
   /\ plain_field (py "n") = true /\ py "x" <> []
   /\ all_in message_chars (py "x") = true
   /\ fst (parse_log (log_line [] (py "1") (py "n") (py "x")) (after []))
      = VList [])
  /\ (plain_field [233%N] = true
      /\ fst (parse_log (log_line [233%N] (py "1") (py "n") (py "x")) (after []))
         = VList [])
  /\ (py " x" <> [] /\ all_in message_chars (py " x") = true
      /\ fst (parse_log (log_line (py "A") (py "1") (py "n") (py " x"))
                (after []))
         = VResults (log_results (py "A") (py "1") (py "n") (py "x"))
      /\ py "x" <> py " x").
Proof.
  repeat split; try reflexivity; discriminate.
Qed.

(** C2, as amended: [parse_log] returns the empty list, prints its notice
    and leaves the corpus as it was for exactly the lines that do not begin
    with three bracket groups (a bracket is missing or out of place), that
    have no colon behind the third group, that have a group which is not a
    field (whitespace inside its token, whitespace only, nothing, or a
    character a field cannot hold), or that have after the colon nothing,
    whitespace only, or a character the message cannot hold.  Every other
    line parses and is appended to the corpus: whitespace before or after
    the token of a field is set aside and does not make a line fail. *)
Theorem parse_log_rejects (history : list Call) (line : str) :
  (no_three_groups line \/ no_colon line \/ bad_field line
   \/ no_message line
   <-> parse_log line (after history)
       = (VList [],
          print (py "Error: The string did not match the pattern.")
            (after history))
       /\ self (snd (parse_log line (after history))) = self (after history)
       /\ length (__log_data (self (snd (parse_log line (after history)))))
          = length (__log_data (self (after history))))
  /\ (~ (no_three_groups line \/ no_colon line \/ bad_field line
         \/ no_message line)
      <-> exists r,
            parse_log line (after history)
            = (VResults r, log_data_append r (after history))).
Proof.
  pose proof (parse_string_rejects line) as D.
  unfold parse_log. rewrite after_pattern.
  destruct (parse_string __define_patterns line) as [r|].
  - split; split.
    + intros H. apply D in H. discriminate.
    + intros [H _]. discriminate.
    + intros _. now exists r.
    + intros _ H. apply D in H. discriminate.
  - split; split.
    + intros _. now repeat split.
    + intros _. now apply D.
    + intros H. exfalso. apply H. now apply D.
    + intros [r H]. discriminate.
Qed.

Lemma parse_log_rejects_witness :
  bad_field (py "[ ] [1] [n]: x")
  /\ parse_log (py "[ ] [1] [n]: x") (after [])
     = (VList [],
        print (py "Error: The string did not match the pattern.") (after [])).
Proof.
  assert (H : bad_field (py "[ ] [1] [n]: x")).
  { exists (py " "), (py "1"), (py "n"), (py ": x").
    split; vm_compute; reflexivity. }
  split; [exact H|].
  apply (proj1 (proj1 (@parse_log_rejects [] (py "[ ] [1] [n]: x")))).
  right. right. left. exact H.
Defined.

(** The two failing lines of the specification, lines that lack brackets
    before a message with brackets, a line without its colon, a field of
    whitespace only and a field with whitespace inside its token. *)
Example parse_log_rejects_examples :
  (no_message (py "[WARN] [100] [node]: ")
   /\ fst (parse_log (py "[WARN] [100] [node]: ") (after [])) = VList [])
  /\ (no_three_groups (py "INFO [100] [node]: hi")
      /\ fst (parse_log (py "INFO [100] [node]: hi") (after [])) = VList [])
  /\ (no_three_groups (py "INFO [100] [node]: hi [x]: y")
      /\ fst (parse_log (py "INFO [100] [node]: hi [x]: y") (after []))
         = VList [])
  /\ (no_three_groups (py "[INFO] [100] node]: see [1]")
      /\ fst (parse_log (py "[INFO] [100] node]: see [1]") (after []))
         = VList [])
  /\ (no_colon (py "[INFO] [100] [node] hi")
      /\ fst (parse_log (py "[INFO] [100] [node] hi") (after [])) = VList [])
  /\ (bad_field (py "[ ] [1] [n]: x")
      /\ fst (parse_log (py "[ ] [1] [n]: x") (after [])) = VList [])
  /\ (bad_field (py "[IN FO] [100] [node]: hi")
      /\ fst (parse_log (py "[IN FO] [100] [node]: hi") (after [])) = VList []).
Proof.
  repeat split; try (vm_compute; reflexivity).
  - exists (py "WARN"), (py "100"), (py "node"), (py ": "), (py " ").
    repeat split; vm_compute; reflexivity.
  - exists (py "INFO"), (py "100"), (py "node"), (py " hi").
    split; vm_compute; reflexivity.
  - exists (py " "), (py "1"), (py "n"), (py ": x").
    split; vm_compute; reflexivity.
  - exists (py "IN FO"), (py "100"), (py "node"), (py ": hi").
    split; vm_compute; reflexivity.
Qed.

(** C2 as stated fails: a bracket field with whitespace next to its
    brackets does not make the line fail; the line parses and the corpus
    grows. *)
Lemma parse_log_white_in_field_counterexample :
  existsb is_white (py " INFO ") = true
  /\ fst (parse_log (log_line (py " INFO ") (py "1") (py "n") (py "x"))
            (after []))
     = VResults (log_results (py "INFO") (py "1") (py "n") (py "x"))
  /\ fst (parse_log (log_line (py " INFO ") (py "1") (py "n") (py "x"))
            (after [])) <> VList []
  /\ length (__log_data (self (after []))) = 0
  /\ length (__log_data
               (self (snd (parse_log
                             (log_line (py " INFO ") (py "1") (py "n") (py "x"))
                             (after []))))) = 1.
Proof. repeat split; try (vm_compute; reflexivity). discriminate. Qed.

(** C3, as amended: a line parses exactly when, its tabs expanded, it has
    the three bracket fields, the colon, and after the colon and any
    whitespace at least one message character; the message is then the
    longest run of message characters from there, brackets included.  The
    space after the colon is not required, and what follows the run is not
    looked at: it neither belongs to the message nor makes the line fail. *)
Theorem message_is_longest_run (history : list Call) (line : str)
        (r : ParseResults) :
  fst (parse_log line (after history)) = VResults r <->
  exists s t n r1 r2 r3 remainder,
    header_at (expandtabs line) s r1 /\ header_at r1 t r2 /\ header_at r2 n r3
    /\ lit_at COLON r3 remainder
    /\ message_of remainder <> []
    /\ r = log_results s t n (message_of remainder).
Proof.
  unfold parse_log. rewrite after_pattern. split.
  - destruct (parse_string __define_patterns line) as [r'|] eqn:E;
      [|discriminate].
    simpl. intros H. injection H as <-.
    apply parse_string_log_at in E
      as (s & t & n & m & rest & -> & r1 & r2 & r3 & r4 & Hs & Ht & Hn & Hc & Hm).
    apply word_at_run in Hm as (Hm & Hne & _).
    exists s, t, n, r1, r2, r3, r4. unfold message_of. rewrite <- Hm.
    now repeat split.
  - intros (s & t & n & r1 & r2 & r3 & r4 & Hs & Ht & Hn & Hc & Hne & ->).
    assert (E : parse_string __define_patterns line
                = Some (log_results s t n (message_of r4))).
    { apply parse_string_log_at.
      exists s, t, n, (message_of r4),
        (drop_while (fun c => chr_in c message_chars) (preParse r4)).
      split; [reflexivity|]. exists r1, r2, r3, r4. repeat split; try assumption.
      apply word_at_run. now repeat split. }
    now rewrite E.
Qed.

(** C3 as stated fails: a line with a character after the message that the
    pattern cannot take still parses, with the message cut there; a line
    without the space after the colon parses; and a tab inside the message
    comes back as spaces. *)
Lemma parse_log_anchored_counterexample :
  (all_in message_chars (py "temp=20" ++ [176%N] ++ py "C") = false
   /\ fst (parse_log
             (log_line (py "A") (py "1") (py "n")
                (py "temp=20" ++ [176%N] ++ py "C")) (after []))
      = VResults (log_results (py "A") (py "1") (py "n") (py "temp=20"))
   /\ py "temp=20" <> py "temp=20" ++ [176%N] ++ py "C")
  /\ fst (parse_log (py "[A] [1] [n]:x") (after []))
     = VResults (log_results (py "A") (py "1") (py "n") (py "x"))
  /\ (fst (parse_log
             (log_line (py "A") (py "1") (py "n") (py "a" ++ [TAB] ++ py "b"))
             (after []))
      = VResults (log_results (py "A") (py "1") (py "n") (py "a  b"))
      /\ py "a  b" <> py "a" ++ [TAB] ++ py "b").
Proof. repeat split; try (vm_compute; reflexivity); discriminate. Qed.

(** C4: for N lines, [parse_logs] returns N elements, the i-th being the
    results of the i-th line or the placeholder of a failure, and the corpus
    grows by the results of the lines that parse, appended in their order,
    hence by as many entries as there are successes. *)
Theorem parse_logs_aligned (history : list Call) (targets : list str) :
  length (fst (parse_logs targets (after history))) = length targets
  /\ (forall i, nth_error (fst (parse_logs targets (after history))) i
                = option_map (entry __define_patterns) (nth_error targets i))
  /\ __log_data (self (snd (parse_logs targets (after history))))
     = __log_data (self (after history)) ++ successes __define_patterns targets
  /\ length (__log_data (self (snd (parse_logs targets (after history)))))
     = length (__log_data (self (after history)))
       + length (filter (parses __define_patterns) targets).
Proof.
  rewrite parse_logs_eq, after_pattern. simpl. repeat split.
  - apply length_map.
  - intros i. apply nth_error_map.
  - now rewrite length_app, successes_length.
Qed.

(** The batch of the specification: two good lines around a bad one. *)
Example parse_logs_batch :
  let targets := [py "[A] [1] [n]: x"; py "bad line"; py "[B] [2] [m]: y"] in
  fst (parse_logs targets (after []))
  = [VResults (log_results (py "A") (py "1") (py "n") (py "x")); VStr [];
     VResults (log_results (py "B") (py "2") (py "m") (py "y"))]
  /\ fst (get_logs_as_list (snd (parse_logs targets (after []))))
     = [[py "A"; py "1"; py "n"; py "x"]; [py "B"; py "2"; py "m"; py "y"]].
Proof. split; reflexivity. Qed.

(** C5: the line of the module's documentation parses, and its list form is
    INFO, 1673415247.564669534, minimal_publisher and the message with its
    quotation marks. *)
Theorem hello_world_as_list :
  (exists r, fst (parse_log hello_world (after [])) = VResults r
             /\ as_list r
                = [py "INFO"; py "1673415247.564669534"; py "minimal_publisher";
                   py "Publishing: " ++ [DQUOTE] ++ py "Hello World: 0"
                   ++ [DQUOTE]])
  /\ fst (get_logs_as_list (snd (parse_log hello_world (after []))))
     = [[py "INFO"; py "1673415247.564669534"; py "minimal_publisher";
         py "Publishing: " ++ [DQUOTE] ++ py "Hello World: 0" ++ [DQUOTE]]].
Proof.
  split; [|vm_compute; reflexivity].
  exists (log_results (py "INFO") (py "1673415247.564669534")
            (py "minimal_publisher")
            (py "Publishing: " ++ [DQUOTE] ++ py "Hello World: 0" ++ [DQUOTE])).
  split; vm_compute; reflexivity.
Qed.

(** C6: after any history of calls, [get_logs_as_list] and
    [get_logs_as_dict] return as many elements as the corpus holds. *)
Theorem projections_length (history : list Call) :
  length (fst (get_logs_as_list (after history)))
  = length (fst (get_logs_as_dict (after history)))
  /\ length (fst (get_logs_as_dict (after history)))
     = length (__log_data (self (after history))).
Proof.
  unfold get_logs_as_list, get_logs_as_dict. simpl.
  rewrite !fold_append_map. simpl. now rewrite !length_map.
Qed.

(** C7: [get_logs_as_list] and [get_logs_as_dict] leave the instance and the
    output as they were, and a second call returns what the first did. *)
Theorem projections_read_only (w : World) :
  snd (get_logs_as_list w) = w
  /\ snd (get_logs_as_dict w) = w
  /\ fst (get_logs_as_list (snd (get_logs_as_list w))) = fst (get_logs_as_list w)
  /\ fst (get_logs_as_dict (snd (get_logs_as_dict w))) = fst (get_logs_as_dict w)
  /\ fst (get_logs_as_list (snd (get_logs_as_dict w))) = fst (get_logs_as_list w)
  /\ fst (get_logs_as_dict (snd (get_logs_as_list w))) = fst (get_logs_as_dict w).
Proof. repeat split. Qed.

(** C8: [parse_log] returns the empty list for a line that does not parse
    and results of four fields for one that does; [parse_logs] puts the empty
    string at the place of a line that does not parse; in both an element has
    length 0 exactly when its line did not parse. *)
Theorem failure_markers (history : list Call) (target : str)
        (targets : list str) :
  match parse_string __define_patterns target with
  | None => fst (parse_log target (after history)) = VList []
  | Some r => fst (parse_log target (after history)) = VResults r
              /\ len (VResults r) = 4
  end
  /\ (len (fst (parse_log target (after history))) = 0
      <-> parse_string __define_patterns target = None)
  /\ Forall2
       (fun target v =>
          match parse_string __define_patterns target with
          | None => v = VStr []
          | Some r => v = VResults r /\ len v = 4
          end
          /\ (len v = 0 <-> parse_string __define_patterns target = None))
       targets (fst (parse_logs targets (after history))).
Proof.
  assert (Hone : forall x,
    match parse_string __define_patterns x with
    | None => entry __define_patterns x = VStr []
    | Some r => entry __define_patterns x = VResults r /\ len (VResults r) = 4
    end).
  { intros x. unfold entry.
    destruct (parse_string __define_patterns x) as [r|] eqn:E; [|reflexivity].
    apply parse_string_fields in E as (s & t & n & m & ->). now split. }
  split; [|split].
  - unfold parse_log. rewrite after_pattern.
    specialize (Hone target). unfold entry in Hone.
    destruct (parse_string __define_patterns target) as [r|]; [|reflexivity].
    destruct Hone as [_ H4]. now split.
  - unfold parse_log. rewrite after_pattern.
    specialize (Hone target). unfold entry in Hone.
    destruct (parse_string __define_patterns target) as [r|]; simpl.
    + destruct Hone as [_ H4]. simpl in H4. rewrite H4. split; discriminate.
    + split; reflexivity.
  - rewrite parse_logs_eq, after_pattern. simpl.
    induction targets as [|x r IH]; simpl; constructor; [|exact IH].
    specialize (Hone x). unfold entry in Hone |- *.
    destruct (parse_string __define_patterns x) as [res|].
    + destruct Hone as [_ H4]. repeat split; try exact H4.
      * simpl in *. rewrite H4. discriminate.
      * discriminate.
    + now repeat split.
Qed.

(** C9: in every state of the store, after any history of calls,
    [dict_keys] is log_severity, timestamp, node_name, message. *)
Theorem dict_keys_fixed (history : list Call) :
  fst (dict_keys (after history))
  = [py "log_severity"; py "timestamp"; py "node_name"; py "message"].
Proof. unfold dict_keys. simpl. now rewrite after_dict_keys. Qed.



Example main_without_argument :
  main (mkEnv [py "parse_ros2_logs.py"] (fun p => Some p) (fun _ => true)
          (fun _ => Some []))
  = Exit 0 (py "Usage: parse_ros2_logs.py <log file path>" ++ [NEWLINE]).
Proof. reflexivity. Qed.

(** With a log file, [main] prints each parsed line, a space after each
    field, and leaves out the line that does not parse. *)
Example main_prints_the_corpus :
  main (mkEnv [py "parse_ros2_logs.py"; py "log.txt"] (fun p => Some p)
          (fun _ => true)
          (fun _ => Some [py "[A] [1] [n]: x" ++ [NEWLINE];
                          py "bad line" ++ [NEWLINE];
                          py "[B] [2] [m]: y z" ++ [NEWLINE]]))
  = Return (mkWorld
              (mkStore __define_patterns
                 [log_results (py "A") (py "1") (py "n") (py "x");
                  log_results (py "B") (py "2") (py "m") (py "y z")]
                 (__dict_keys init))
              (py "A 1 n x " ++ [NEWLINE] ++ py "B 2 m y z " ++ [NEWLINE])).
Proof. reflexivity. Qed.

(** * Further properties of the store, of the pattern and of [main] *)

Lemma successes_app (pattern : ParserElement) (a b : list str) :
  successes pattern (a ++ b) = successes pattern a ++ successes pattern b.
Proof. apply flat_map_app. Qed.

Lemma call_effect (c : Call) (w : World) :
  __pattern (self w) = __define_patterns ->
  __log_data (self (call c w))
  = __log_data (self w) ++ successes __define_patterns (submitted [c])
  /\ stdout (call c w) = stdout w ++ notices [c].
Proof.
  intros HP. unfold submitted, notices, successes.
  destruct c as [target|targets| | |]; cbn [call flat_map app].
  - unfold parse_log, parses. rewrite HP.
    destruct (parse_string __define_patterns target) as [r|]; simpl;
      rewrite ?app_nil_r; now split.
  - rewrite parse_logs_eq, HP. simpl. rewrite !app_nil_r. now split.
  - simpl. rewrite !app_nil_r. now split.
  - simpl. rewrite !app_nil_r. now split.
  - simpl. rewrite !app_nil_r. now split.
Qed.

Lemma calls_effect (history : list Call) (w : World) :
  __pattern (self w) = __define_patterns ->
  __log_data (self (fold_left (fun w c => call c w) history w))
  = __log_data (self w) ++ successes __define_patterns (submitted history)
  /\ stdout (fold_left (fun w c => call c w) history w)
     = stdout w ++ notices history.
Proof.
  revert w. induction history as [|c r IH]; intros w HP; cbn [fold_left].
  - unfold submitted, notices, successes. simpl. now rewrite !app_nil_r.
  - destruct (@call_effect c w HP) as [HL HO].
    destruct (IH (call c w)) as [HL' HO'];
      [now rewrite call_pattern|].
    rewrite HL', HO', HL, HO.
    assert (ES : submitted (c :: r) = submitted [c] ++ submitted r)
      by (unfold submitted; simpl; now rewrite app_nil_r).
    assert (EN : notices (c :: r) = notices [c] ++ notices r)
      by (unfold notices; simpl; now rewrite app_nil_r).
    rewrite ES, EN, successes_app, <- !app_assoc. now split.
Qed.

(** X1: after any history of calls the corpus holds the results of the
    submitted lines that parse, in the order of submission, and nothing
    else; [get_logs_as_list] returns their token lists. *)
Theorem corpus_is_successes (history : list Call) :
  __log_data (self (after history))
  = successes __define_patterns (submitted history)
  /\ fst (get_logs_as_list (after history))
     = map as_list (successes __define_patterns (submitted history)).
Proof.
  assert (H : __log_data (self (after history))
              = successes __define_patterns (submitted history)).
  { unfold after. now destruct (@calls_effect history (mkWorld init []) eq_refl). }
  split; [exact H|].
  unfold get_logs_as_list. simpl. now rewrite fold_append_map, H.
Qed.

(** X2: the methods print nothing but the notice of [parse_log], once for
    each call of [parse_log] on a line that does not parse; [parse_logs] and
    the accessors print nothing. *)
Theorem stdout_is_notices (history : list Call) :
  stdout (after history) = notices history.
Proof.
  unfold after. now destruct (@calls_effect history (mkWorld init []) eq_refl).
Qed.

Lemma after_log_data (history : list Call) :
  __log_data (self (after history))
  = successes __define_patterns (submitted history).
Proof.
  unfold after. now destruct (@calls_effect history (mkWorld init []) eq_refl).
Qed.

Lemma word_at_header_token (text tok rest : str) :
  word_at header_chars text tok rest -> header_token tok = true.
Proof.
  intros (_ & _ & _ & Hne & Hall & _).
  destruct tok; [congruence | exact Hall].
Qed.

Lemma header_at_token (text tok rest : str) :
  header_at text tok rest -> header_token tok = true.
Proof.
  intros (r1 & r2 & _ & H & _). now apply word_at_header_token in H.
Qed.

Lemma word_at_message_text (text m rest : str) :
  word_at message_chars text m rest -> message_text m = true.
Proof.
  intros (_ & _ & _ & Hne & Hall & Hb & _).
  destruct m as [|c r]; [congruence|]. simpl in Hb. unfold message_text.
  rewrite Hall, andb_true_r. apply negb_true_iff, N.eqb_neq. intros ->.
  discriminate Hb.
Qed.

Lemma parse_string_entry (line : str) (r : ParseResults) :
  parse_string __define_patterns line = Some r ->
  exists s t n m,
    r = log_results s t n m /\ header_token s = true /\ header_token t = true
    /\ header_token n = true /\ message_text m = true.
Proof.
  intros H.
  apply parse_string_log_at in H
    as (s & t & n & m & rest & -> & r1 & r2 & r3 & r4 & Hs & Ht & Hn & _ & Hm).
  exists s, t, n, m. repeat split.
  - now apply header_at_token in Hs.
  - now apply header_at_token in Ht.
  - now apply header_at_token in Hn.
  - now apply word_at_message_text in Hm.
Qed.

Lemma successes_Forall (Q : ParseResults -> Prop) (targets : list str) :
  (forall t r, parse_string __define_patterns t = Some r -> Q r) ->
  Forall Q (successes __define_patterns targets).
Proof.
  intros HQ. unfold successes.
  induction targets as [|t rest IH]; simpl; [constructor|].
  destruct (parse_string __define_patterns t) as [r|] eqn:E; simpl.
  - constructor; [now apply (HQ t) | exact IH].
  - exact IH.
Qed.

(** X3: after any history of calls every entry of [get_logs_as_list] has
    exactly four fields: three non-empty fields of printable ASCII without
    space or square bracket, and a non-empty message of printable ASCII that
    does not begin with a space. *)
Theorem entries_well_formed (history : list Call) :
  Forall entry_fields (fst (get_logs_as_list (after history))).
Proof.
  unfold get_logs_as_list. simpl.
  rewrite fold_append_map, after_log_data. simpl.
  apply Forall_map, successes_Forall.
  intros line r H.
  apply parse_string_entry in H as (s & t & n & m & -> & Hs & Ht & Hn & Hm).
  now exists s, t, n, m.
Qed.

(** X4: after any history of calls the i-th dictionary of
    [get_logs_as_dict] pairs the keys of [dict_keys], in their order, with
    the fields of the i-th list of [get_logs_as_list]. *)
Theorem dicts_pair_keys_with_fields (history : list Call) :
  fst (get_logs_as_dict (after history))
  = map (combine (fst (dict_keys (after history))))
      (fst (get_logs_as_list (after history))).
Proof.
  unfold get_logs_as_dict, get_logs_as_list, dict_keys. simpl.
  rewrite !fold_append_map, after_dict_keys, after_log_data. simpl.
  rewrite map_map.
  pose proof (successes_Forall
                (fun r => as_dict r = combine (__dict_keys init) (as_list r))
                (submitted history)) as H.
  rewrite Forall_forall in H. apply map_ext_in, H.
  intros line r E.
  apply parse_string_entry in E as (s & t & n & m & -> & _).
  reflexivity.
Qed.

(** X5: a line that parses can be written back in the shape
    [[s] [t] [n]: m] from its four fields, and that line parses to the same
    results. *)
Theorem canonical_line_reparses (line : str) (r : ParseResults) :
  parse_string __define_patterns line = Some r ->
  exists s t n m,
    as_list r = [s; t; n; m]
    /\ parse_string __define_patterns (log_line s t n m) = Some r.
Proof.
  intros H.
  apply parse_string_entry in H as (s & t & n & m & -> & Hs & Ht & Hn & Hm).
  exists s, t, n, m. split; [reflexivity|].
  now apply parse_string_line.
Qed.

Lemma canonical_line_reparses_witness :
  parse_string __define_patterns (py "  [ WARN ][7]   [cam_1] :lost  frame")
  = Some (log_results (py "WARN") (py "7") (py "cam_1") (py "lost  frame"))
  /\ exists s t n m,
       as_list (log_results (py "WARN") (py "7") (py "cam_1")
                  (py "lost  frame")) = [s; t; n; m]
       /\ parse_string __define_patterns (log_line s t n m)
          = Some (log_results (py "WARN") (py "7") (py "cam_1")
                    (py "lost  frame")).
Proof.
  split; [vm_compute; reflexivity|].
  apply (@canonical_line_reparses (py "  [ WARN ][7]   [cam_1] :lost  frame")).
  vm_compute. reflexivity.
Defined.

Lemma print_fields (fields : list str) (w : World) :
  fold_left (fun w j => print_noend (j ++ [SPACE]) w) fields w
  = mkWorld (self w) (stdout w ++ flat_map (fun j => j ++ [SPACE]) fields).
Proof.
  revert w. induction fields as [|j r IH]; intros w; simpl.
  - rewrite app_nil_r. now destruct w.
  - rewrite IH. simpl. now rewrite <- !app_assoc.
Qed.

Lemma print_entries (logs : list (list str)) (w : World) :
  fold_left
    (fun w i =>
       print [] (fold_left (fun w j => print_noend (j ++ [SPACE]) w) i w))
    logs w
  = mkWorld (self w) (stdout w ++ flat_map printed_entry logs).
Proof.
  revert w. induction logs as [|i r IH]; intros w; simpl.
  - rewrite app_nil_r. now destruct w.
  - rewrite IH, print_fields. unfold print, println, printed_entry. simpl.
    now rewrite <- !app_assoc.
Qed.

(** X6: given the path of a readable file, [main] prints one line for each
    line of the file that parses, in the order of the file: its four fields,
    each followed by a space.  The lines that do not parse leave no trace in
    the output, and the instance ends with the parsed entries as corpus. *)
Theorem main_prints_parsed_lines (env : Env) (arg path : str)
        (lines : list str) :
  nth_error (argv env) 1 = Some arg ->
  abspath env arg = Some path -> isfile env path = true ->
  readlines env path = Some lines ->
  main env
  = Return
      (mkWorld
         (mkStore __define_patterns (successes __define_patterns lines)
            (__dict_keys init))
         (flat_map printed_entry
            (map as_list (successes __define_patterns lines)))).
Proof.
  intros Harg Hpath Hfile Hread. unfold main, main_path.
  rewrite Harg, Hpath, Hfile, Hread.
  rewrite parse_logs_eq. unfold get_logs_as_list.
  cbn [self init __pattern __log_data __dict_keys stdout app].
  now rewrite print_entries, fold_append_map.
Qed.

Lemma main_prints_parsed_lines_witness :
  let env := mkEnv [py "parse_ros2_logs.py"; py "log.txt"]
               (fun p => Some (py "/tmp/" ++ p)) (fun _ => true)
               (fun _ => Some [py "[A] [1] [n]: x" ++ [NEWLINE];
                               py "bad line" ++ [NEWLINE]]) in
  nth_error (argv env) 1 = Some (py "log.txt")
  /\ abspath env (py "log.txt") = Some (py "/tmp/log.txt")
  /\ isfile env (py "/tmp/log.txt") = true
  /\ main env
     = Return
         (mkWorld
            (mkStore __define_patterns
               (successes __define_patterns
                  [py "[A] [1] [n]: x" ++ [NEWLINE];
                   py "bad line" ++ [NEWLINE]])
               (__dict_keys init))
            (flat_map printed_entry
               (map as_list
                  (successes __define_patterns
                     [py "[A] [1] [n]: x" ++ [NEWLINE];
                      py "bad line" ++ [NEWLINE]])))).
Proof.
  repeat (split; [reflexivity|]).
  apply (@main_prints_parsed_lines
           (mkEnv [py "parse_ros2_logs.py"; py "log.txt"]
              (fun p => Some (py "/tmp/" ++ p)) (fun _ => true)
              (fun _ => Some [py "[A] [1] [n]: x" ++ [NEWLINE];
                              py "bad line" ++ [NEWLINE]]))
           (py "log.txt") (py "/tmp/log.txt")); reflexivity.
Defined.

(** X7: [parse_logs] on two batches joined is [parse_logs] on the first and
    then on the second: the results are joined and the instance is the
    same. *)
Theorem parse_logs_app (a b : list str) (w : World) :
  fst (parse_logs (a ++ b) w)
  = fst (parse_logs a w) ++ fst (parse_logs b (snd (parse_logs a w)))
  /\ snd (parse_logs (a ++ b) w) = snd (parse_logs b (snd (parse_logs a w))).
Proof.
  rewrite !parse_logs_eq. simpl.
  now rewrite map_app, successes_app, app_assoc.
Qed.

Lemma parse_log_each (targets : list str) (w : World) :
  self (fold_left (fun w target => snd (parse_log target w)) targets w)
  = mkStore (__pattern (self w))
      (__log_data (self w) ++ successes (__pattern (self w)) targets)
      (__dict_keys (self w)).
Proof.
  revert w. induction targets as [|t r IH]; intros w; cbn [fold_left].
  - unfold successes. simpl. rewrite app_nil_r. now destruct w as [[P L K] o].
  - rewrite IH. unfold parse_log, successes. simpl.
    destruct (parse_string (__pattern (self w)) t) as [res|]; simpl.
    + now rewrite <- app_assoc.
    + reflexivity.
Qed.

(** X8: [parse_logs] leaves the instance as [parse_log] called on each line
    in turn leaves it, and prints nothing. *)
Theorem parse_logs_as_parse_log (targets : list str) (w : World) :
  self (snd (parse_logs targets w))
  = self (fold_left (fun w target => snd (parse_log target w)) targets w)
  /\ stdout (snd (parse_logs targets w)) = stdout w.
Proof.
  rewrite parse_logs_eq, parse_log_each. now split.
Qed.

(** X9: what [parse_log] and [parse_logs] return for a line depends on the
    line only, not on the calls made before. *)
Theorem results_ignore_history (history : list Call) (target : str)
        (targets : list str) :
  fst (parse_log target (after history)) = fst (parse_log target (after []))
  /\ fst (parse_logs targets (after history))
     = fst (parse_logs targets (after [])).
Proof.
  rewrite !parse_logs_eq. unfold parse_log.
  rewrite !after_pattern. split; [|reflexivity].
  now destruct (parse_string __define_patterns target).
Qed.

Lemma And_first (a b : ParserElement) (x y : str) :
  a x = a y -> And a b x = And a b y.
Proof. intros H. unfold And. now rewrite H. Qed.

Lemma define_patterns_skip (w text : str) :
  blank w = true -> __define_patterns (w ++ text) = __define_patterns text.
Proof.
  intros Hw. unfold __define_patterns, header.
  repeat apply And_first.
  unfold Suppress, Suppress_expr, Literal. now rewrite preParse_app.
Qed.

(** X10: whitespace before the first bracket is skipped: a line without
    tabs parses to the same results with any whitespace in front of it. *)
Theorem leading_whitespace_ignored (w line : str) :
  blank w = true -> no_tabs line = true ->
  parse_string __define_patterns (w ++ line)
  = parse_string __define_patterns line.
Proof.
  intros Hw Hline. unfold parse_string, expandtabs.
  destruct (expandtabs_from_app 0 w line) as (k & ->).
  rewrite !(expandtabs_from_id line) by assumption.
  rewrite define_patterns_skip; [reflexivity|].
  now rewrite (expansion_blank (expandtabs_expansion w 0)).
Qed.

Lemma leading_whitespace_ignored_witness :
  blank [SPACE; TAB; SPACE] = true /\ no_tabs (py "[A] [1] [n]: x") = true
  /\ parse_string __define_patterns ([SPACE; TAB; SPACE] ++ py "[A] [1] [n]: x")
     = parse_string __define_patterns (py "[A] [1] [n]: x").
Proof.
  repeat (split; [reflexivity|]).
  apply (@leading_whitespace_ignored [SPACE; TAB; SPACE] (py "[A] [1] [n]: x"));
    reflexivity.
Defined.

Lemma snoc_split (text a b : str) (c : char) :
  text ++ [c] = a ++ b -> b <> [] ->
  exists b', b = b' ++ [c] /\ text = a ++ b'.
Proof.
  intros H Hb. destruct (exists_last Hb) as (b' & x & ->).
  rewrite app_assoc in H. apply app_inj_tail in H as [-> ->]. now exists b'.
Qed.

Lemma lit_at_strip (ch c : char) (text rest : str) :
  ch <> c -> lit_at ch (text ++ [c]) rest ->
  exists rest', rest = rest' ++ [c] /\ lit_at ch text rest'.
Proof.
  intros Hch (w & Hw & H).
  apply snoc_split in H as (b' & Hb & ->); [|discriminate].
  destruct b' as [|y b'']; simpl in Hb.
  - injection Hb as -> _. congruence.
  - injection Hb as <- ->. exists b''. split; [reflexivity|]. now exists w.
Qed.

Lemma word_at_strip (chars text tok rest : str) (c : char) :
  chr_in c chars = false -> word_at chars (text ++ [c]) tok rest ->
  exists rest', rest = rest' ++ [c] /\ word_at chars text tok rest'.
Proof.
  intros Hc (w & Hw & H & Hne & Hall & Hb & Hr).
  destruct rest as [|y rest0].
  - exfalso. rewrite app_nil_r in H.
    apply snoc_split in H as (b' & -> & _); [|assumption].
    unfold all_in in Hall. rewrite forallb_app in Hall. simpl in Hall.
    rewrite Hc in Hall. now rewrite andb_false_r in Hall.
  - rewrite app_assoc in H.
    apply snoc_split in H as (rest' & Hrest & ->); [|discriminate].
    exists rest'. split; [exact Hrest|]. exists w.
    repeat split; try assumption.
    + now rewrite app_assoc.
    + destruct rest' as [|z rest'']; [reflexivity|].
      simpl in Hrest. injection Hrest as -> _. exact Hr.
Qed.

Lemma header_at_strip (text tok rest : str) (c : char) :
  chr_in c message_chars = false -> header_at (text ++ [c]) tok rest ->
  exists rest', rest = rest' ++ [c] /\ header_at text tok rest'.
Proof.
  intros Hc (r1 & r2 & H1 & H2 & H3).
  assert (HL : LBRACKET <> c) by (intros <-; discriminate Hc).
  assert (HR : RBRACKET <> c) by (intros <-; discriminate Hc).
  assert (Hh : chr_in c header_chars = false).
  { destruct (chr_in c header_chars) eqn:E; [|reflexivity].
    apply header_chars_message in E. congruence. }
  destruct (@lit_at_strip _ _ _ _ HL H1) as (r1' & -> & H1').
  destruct (@word_at_strip _ _ _ _ _ Hh H2) as (r2' & -> & H2').
  destruct (@lit_at_strip _ _ _ _ HR H3) as (rest' & -> & H3').
  exists rest'. split; [reflexivity|]. now exists r1', r2'.
Qed.

Lemma log_at_strip (text s t n m rest : str) (c : char) :
  chr_in c message_chars = false -> log_at (text ++ [c]) s t n m rest ->
  exists rest', log_at text s t n m rest'.
Proof.
  intros Hc (r1 & r2 & r3 & r4 & Hs & Ht & Hn & Hcol & Hm).
  assert (HC : COLON <> c) by (intros <-; discriminate Hc).
  destruct (@header_at_strip _ _ _ _ Hc Hs) as (r1' & -> & Hs').
  destruct (@header_at_strip _ _ _ _ Hc Ht) as (r2' & -> & Ht').
  destruct (@header_at_strip _ _ _ _ Hc Hn) as (r3' & -> & Hn').
  destruct (@lit_at_strip _ _ _ _ HC Hcol) as (r4' & -> & Hcol').
  destruct (@word_at_strip _ _ _ _ _ Hc Hm) as (rest' & -> & Hm').
  exists rest', r1', r2', r3', r4'. now repeat split.
Qed.

(** X11: a last character that the message cannot hold and that is not a
    tab, such as the line feed that [readlines] leaves at the end of a line,
    changes nothing: the line parses with it exactly when it parses without
    it, and to the same results. *)
Theorem final_character_ignored (line : str) (c : char) :
  chr_in c message_chars = false -> c <> TAB ->
  parse_string __define_patterns (line ++ [c])
  = parse_string __define_patterns line.
Proof.
  intros Hc Ht.
  destruct (parse_string __define_patterns line) as [r|] eqn:E.
  - now apply trailing_text_ignored.
  - destruct (parse_string __define_patterns (line ++ [c])) as [r|] eqn:E';
      [|reflexivity].
    exfalso.
    apply parse_string_log_at in E' as (s & t & n & m & rest & -> & H).
    unfold expandtabs in H.
    destruct (expandtabs_from_app 0 line [c]) as (k & Hk).
    rewrite Hk, expandtabs_from_cons in H.
    apply N.eqb_neq in Ht. rewrite Ht in H. simpl in H.
    destruct (@log_at_strip _ _ _ _ _ _ _ Hc H) as (rest' & H').
    assert (E2 : parse_string __define_patterns line
                 = Some (log_results s t n m))
      by (apply parse_string_log_at; now exists s, t, n, m, rest').
    congruence.
Qed.

Lemma final_character_ignored_witness :
  chr_in NEWLINE message_chars = false /\ NEWLINE <> TAB
  /\ parse_string __define_patterns (py "[A] [1] [n]: x" ++ [NEWLINE])
     = parse_string __define_patterns (py "[A] [1] [n]: x").
Proof.
  split; [reflexivity|]. split; [discriminate|].
  apply (@final_character_ignored (py "[A] [1] [n]: x") NEWLINE);
    [reflexivity | discriminate].
Defined.

(** X12: the pattern takes in a bracket field exactly the printable ASCII
    characters other than the space and the two square brackets (code points
    33 to 126 without 91 and 93), and in the message exactly the printable
    ASCII characters, the space included (code points 32 to 126). *)
Theorem pattern_character_sets (c : char) :
  chr_in c header_chars
  = ((33 <=? c) && (c <=? 126) && negb (c =? LBRACKET)
     && negb (c =? RBRACKET))%N
  /\ chr_in c message_chars = ((32 <=? c) && (c <=? 126))%N.
Proof. split; [apply header_chars_spec | apply message_chars_spec]. Qed.

(** X13: the corpus only grows at its end: after more calls it is the
    corpus of before followed by the results of the lines submitted since
    that parse, so no call removes, changes or moves an entry. *)
Theorem corpus_append_only (history more : list Call) :
  __log_data (self (after (history ++ more)))
  = __log_data (self (after history))
    ++ successes __define_patterns (submitted more).
Proof.
  unfold after. rewrite fold_left_app. fold (after history).
  now destruct (@calls_effect more (after history) (after_pattern history)).
Qed.
